(** * libdispatch/dutil.c: string utilities of the dispatch layer

    A shallow embedding of the text primitives of [dutil.c]
    ([NC_backslashEscape], [NC_backslashUnescape], [NC_entityescape],
    [NC_shellUnescape], [NC_split_delim], [NC_join], [NC_getmodelist],
    [NC_testmode], [NC_testpathmode], [NC__testurl]) and of its [isinf] and
    [isnan], and the properties stated about them.  The wrappers around
    files ([NC_mktmp], [NC_readfile], [NC_writefile]) and the probe of the
    byte order are not modelled.

    Conventions of the embedding.
    - A C string is the list of the bytes that precede its terminating NUL;
      the terminator is not stored.  A pointer [p] that walks a string is the
      list of the bytes from [p] on: [*p == 0] is [p = []], [p++] is the tail.
    - A pointer that may be NULL is an [option].
    - An out-parameter [T* xp] is [ptr T]: [None] when the caller passed NULL,
      [Some v] when it points to a cell that holds [v]; the function returns
      the cell as it is when the call ends.
    - [malloc] can fail.  Each function takes the outcomes of the allocations
      still to come ([allocs]); once the list is used up every allocation
      succeeds, so [[]] is a machine that never runs out of memory. *)

From Stdlib Require Import Ascii String List Bool Arith ZArith Lia.
From Equations Require Import Equations.
From Equations.Prop Require Import Logic.
Import ListNotations.

Local Open Scope char_scope.
Local Open Scope list_scope.

(** ** Bytes, strings, pointers *)

Abbreviation char := ascii (only parsing).
Abbreviation cstring := (list ascii) (only parsing).
Abbreviation ptr A := (option A) (only parsing).

Definition lit (s : string) : cstring := list_ascii_of_string s.

Definition NUL : char := "000".
Definition backslash : char := "092".
Definition dquote : char := "034".

Definition strlen (s : cstring) : nat := length s.

(** A C string holds no NUL byte. *)
Definition nonul (s : cstring) : bool :=
  forallb (fun c => negb (c =? NUL)) s.

(** ** Allocation *)

Abbreviation allocs := (list bool) (only parsing).

Definition malloc (h : allocs) : bool * allocs :=
  match h with
  | [] => (true, [])
  | ok :: h' => (ok, h')
  end.

(** No allocation of the run fails. *)
Definition plentiful (h : allocs) : bool := forallb (fun ok => ok) h.

(** ** Outcomes of a scan

    [NC_backslashUnescape] can step over the terminator of its argument.
    The read that follows is outside the string; the embedding stops there
    with [ReadPastEnd]. *)

Inductive outcome (A : Type) : Type :=
| Ret (v : A)
| ReadPastEnd.
Arguments Ret {A} v.
Arguments ReadPastEnd {A}.

(** ** NC_backslashEscape *)

(** The case labels of the switch. *)
Definition escape_case (c : char) : bool :=
  (c =? backslash) || (c =? "/") || (c =? ".") || (c =? "@").

(** The [for] loop: [p] walks the argument, [q] is what has been written to
    [escaped] so far. *)
Fixpoint backslashEscape_loop (p : cstring) (q : list char) : list char :=
  match p with
  | [] => q
  | c :: p' =>
      if escape_case c
      then backslashEscape_loop p' (q ++ [backslash; backslash])
      else backslashEscape_loop p' (q ++ [c])
  end.

Definition NC_backslashEscape (h : allocs) (s : cstring) : ptr cstring :=
  if fst (malloc h) then Some (backslashEscape_loop s []) else None.

(** ** NC_backslashUnescape *)

(** The [for] loop.  On a backslash [p] is advanced first, then
    [*q++ = *p++] copies whatever is there.  When that byte is the
    terminator, [p] ends one past it and the loop test reads outside the
    string. *)
Fixpoint backslashUnescape_loop (p : cstring) (q : list char)
  : outcome (list char) :=
  match p with
  | [] => Ret q
  | c :: p1 =>
      if c =? backslash then
        match p1 with
        | [] => ReadPastEnd
        | c1 :: p2 => backslashUnescape_loop p2 (q ++ [c1])
        end
      else backslashUnescape_loop p1 (q ++ [c])
  end.

Definition NC_backslashUnescape (h : allocs) (esc : ptr cstring)
  : outcome (ptr cstring) :=
  match esc with
  | None => Ret None
  | Some e =>
      if fst (malloc h) then
        match backslashUnescape_loop e [] with
        | Ret s => Ret (Some s)
        | ReadPastEnd => ReadPastEnd
        end
      else Ret None
  end.

(** ** NC_entityescape *)

(** The switch: the entity that replaces [c], NULL when there is none. *)
Definition entity_of (c : char) : ptr cstring :=
  if c =? "&" then Some (lit "&amp;")
  else if c =? "<" then Some (lit "&lt;")
  else if c =? ">" then Some (lit "&gt;")
  else if c =? dquote then Some (lit "&quot;")
  else if c =? "'" then Some (lit "&apos;")
  else None.

Fixpoint entityescape_loop (p : cstring) (q : list char) : list char :=
  match p with
  | [] => q
  | c :: p' =>
      match entity_of c with
      | None => entityescape_loop p' (q ++ [c])
      | Some entity => entityescape_loop p' (q ++ firstn (strlen entity) entity)
      end
  end.

Definition NC_entityescape (h : allocs) (s : cstring) : ptr cstring :=
  if fst (malloc h) then Some (entityescape_loop s []) else None.

(** ** Status codes and containers *)

(** Modelled from the spec: [netcdf.h] is not part of the excerpt.  The
    status codes used in [dutil.c] form a small enumeration of distinct
    integers, [NC_NOERR] being the zero that [if((stat = f(...)))] tests:
    [NC_EINVAL] is InvalidInput, [NC_EURL] is MalformedInput and
    UriParseError, [NC_ENOMEM] is OutOfMemory, [NC_EIO] is IoError. *)
Inductive ncerr : Type :=
| NC_NOERR
| NC_EINVAL
| NC_ENOMEM
| NC_EURL
| NC_EIO.

(** Modelled from the spec: [nclist.c] is not part of the excerpt.  An
    [NClist] is a growable ordered sequence; [dutil.c] stores strings in it
    and ignores the results of [nclistnew] and [nclistpush], which are taken
    to succeed. *)
Abbreviation NClist := (list (list ascii)) (only parsing).
Definition nclistnew : ptr NClist := Some [].
Definition nclistpush (l : NClist) (elem : cstring) : NClist := l ++ [elem].
Definition nclistlength (l : ptr NClist) : nat :=
  match l with
  | None => 0
  | Some l => length l
  end.

(** Modelled from the spec: [ncbytes.c] is not part of the excerpt.  An
    [NCbytes] is a growable byte buffer; [ncbytescat] appends a string and
    [ncbytesextract] hands the content over to the caller. *)
Abbreviation NCbytes := (list ascii) (only parsing).
Definition ncbytesnew : NCbytes := [].
Definition ncbytescat (buf : NCbytes) (s : cstring) : NCbytes := buf ++ s.
Definition ncbytesextract (buf : NCbytes) : ptr cstring := Some buf.

(** ** NC_split_delim *)

(** [strchr(p, c)]: the string from the first [c] on, NULL when there is
    none; the terminator is found when [c] is NUL. *)
Fixpoint strchr (p : cstring) (c : char) : ptr cstring :=
  match p with
  | [] => if c =? NUL then Some [] else None
  | x :: p' => if x =? c then Some p else strchr p' c
  end.

(** What one turn of the [for(;*p;)] loop comes to: [goto done] with a
    status, or another turn with a new [p]; either way with the caller's
    list as the turn leaves it. *)
Inductive iteration : Type :=
| Leave (stat : ncerr) (segments : NClist)
| Again (h : allocs) (p : cstring) (segments : NClist).

(** The body of the loop, entered with [*p] not NUL.  [q] is the first
    delimiter from [p] on, or the terminator; [len = q - p]; an empty run is
    [NC_EURL]; the run is copied into a fresh [seg] and pushed on
    [segments]; [p] moves past the delimiter, or to the terminator. *)
Definition split_body (h : allocs) (p : cstring) (delim : char)
  (segments : NClist) : iteration :=
  let q := match strchr p delim with
           | Some q => q
           | None => skipn (strlen p) p
           end in
  let len := length p - length q in
  if (len =? 0)%nat then Leave NC_EURL segments
  else
    match malloc h with
    | (false, _) => Leave NC_ENOMEM segments
    | (true, h') =>
        let seg := firstn len p in
        let segments := nclistpush segments seg in
        Again h' (match q with
                  | [] => q
                  | _ :: q1 => q1
                  end) segments
    end.

(** The loop.  It ends because every turn that goes round again has
    moved [p] forward. *)
Equations? split_loop (h : allocs) (p : cstring) (delim : char)
  (segments : NClist) : ncerr * NClist by wf (length p) lt :=
  split_loop h [] delim segments := (NC_NOERR, segments);
  split_loop h (c :: p') delim segments
    with inspect (split_body h (c :: p') delim segments) := {
    | exist _ (Leave stat segs) _ := (stat, segs)
    | exist _ (Again h1 p1 segs) Heq := split_loop h1 p1 delim segs }.
Proof.
  unfold split_body in Heq.
  assert (Hq : forall (x : cstring) (d : char) (y : cstring),
             strchr x d = Some y -> length y <= length x).
  { induction x as [|a x IH]; simpl; intros d y.
    - destruct (d =? NUL); intro E; inversion E; simpl; lia.
    - destruct (a =? d); intro E.
      + inversion E; simpl; lia.
      + apply IH in E. lia. }
  destruct (strchr (c :: p') delim) as [q|] eqn:Es.
  - apply Hq in Es.
    destruct (length (c :: p') - length q =? 0)%nat; [discriminate|].
    destruct (malloc h) as [[|] h2]; [|discriminate].
    inversion Heq; subst. simpl in Es.
    destruct q; simpl in *; lia.
  - destruct (length (c :: p') - length (skipn (strlen (c :: p')) (c :: p'))
               =? 0)%nat; [discriminate|].
    destruct (malloc h) as [[|] h2]; [|discriminate].
    inversion Heq; subst.
    unfold strlen. rewrite skipn_all. simpl. lia.
Qed.

(** Nothing is done for a NULL or empty [arg] and for a NULL list; one
    leading delimiter is skipped.  The second component is the caller's
    list when the call returns. *)
Definition NC_split_delim (h : allocs) (arg : ptr cstring) (delim : char)
  (segments : ptr NClist) : ncerr * ptr NClist :=
  match arg, segments with
  | Some a, Some segs =>
      if (strlen a =? 0)%nat then (NC_NOERR, segments)
      else
        let p := match a with
                 | c :: p1 => if c =? delim then p1 else a
                 | [] => a
                 end in
        let (stat, segs') := split_loop h p delim segs in
        (stat, Some segs')
  | _, _ => (NC_NOERR, segments)
  end.

(** ** NC_join *)

(** [seg[0] != '/'], where [seg[0]] is the terminator when [seg] is empty. *)
Definition first_is_not_slash (seg : cstring) : bool :=
  match seg with
  | [] => true
  | c :: _ => negb (c =? "/")
  end.

(** The [for] loop over the segments, [buf] being the buffer so far. *)
Fixpoint join_loop (segments : NClist) (buf : NCbytes) : NCbytes :=
  match segments with
  | [] => buf
  | seg :: rest =>
      let buf := if first_is_not_slash seg
                 then ncbytescat buf (lit "/") else buf in
      join_loop rest (ncbytescat buf seg)
  end.

(** [ncbytesnew] draws on the allocator and its result is checked. *)
Definition NC_join (h : allocs) (segments : ptr NClist)
  (pathp : ptr (ptr cstring)) : ncerr * ptr (ptr cstring) :=
  match segments with
  | None => (NC_EINVAL, pathp)
  | Some segs =>
      if fst (malloc h) then
        let buf := ncbytesnew in
        let buf := if (nclistlength segments =? 0)%nat
                   then ncbytescat buf (lit "/")
                   else join_loop segs buf in
        (NC_NOERR, match pathp with
                   | Some _ => Some (ncbytesextract buf)
                   | None => None
                   end)
      else (NC_ENOMEM, pathp)
  end.

(** ** NC_getmodelist *)

(** The list is built in a local [modelist] and stored through
    [modelistp] only when the status is [NC_NOERR]; otherwise it is freed. *)
Definition NC_getmodelist (h : allocs) (modestr : ptr cstring)
  (modelistp : ptr (ptr NClist)) : ncerr * ptr (ptr NClist) :=
  let modelist := nclistnew in
  let (stat, modelist) :=
    match modestr with
    | None => (NC_NOERR, modelist)
    | Some s =>
        if (strlen s =? 0)%nat then (NC_NOERR, modelist)
        else NC_split_delim h modestr "," modelist
    end in
  match stat with
  | NC_NOERR => (stat, match modelistp with
                       | Some _ => Some modelist
                       | None => None
                       end)
  | _ => (stat, modelistp)
  end.

(** ** NC_testmode *)

(** Modelled from the spec: [strcasecmp] belongs to the C library.  It
    compares two strings byte by byte after folding the ASCII letters to
    lower case and returns the difference at the first position where they
    differ, the terminator counting as 0. *)
Definition tolower (c : char) : char :=
  let n := nat_of_ascii c in
  if (65 <=? n)%nat && (n <=? 90)%nat then ascii_of_nat (n + 32) else c.

Definition uchar (c : char) : Z := Z.of_nat (nat_of_ascii c).

Fixpoint strcasecmp (s1 s2 : cstring) : Z :=
  match s1, s2 with
  | [], [] => 0
  | [], c2 :: _ => 0 - uchar (tolower c2)
  | c1 :: _, [] => uchar (tolower c1) - 0
  | c1 :: s1', c2 :: s2' =>
      if tolower c1 =? tolower c2 then strcasecmp s1' s2'
      else uchar (tolower c1) - uchar (tolower c2)
  end.

(** The search loop of [NC_testmode] over the mode list. *)
Fixpoint search_tag (modelist : NClist) (tag : cstring) : Z :=
  match modelist with
  | [] => 0
  | mode :: rest =>
      if (strcasecmp mode tag =? 0)%Z then 1 else search_tag rest tag
  end.

Section URI.

(** [ncuri.c] is not part of the excerpt: the parsed URI and the lookup in
    its fragment store are parameters.  [ncurifragmentlookup uri key] is
    the value stored under [key], NULL when there is none. *)
Variable NCURI : Type.
Variable ncurifragmentlookup : NCURI -> cstring -> ptr cstring.

(** [modelist] starts as NULL and is filled by [NC_getmodelist]; the
    search runs only when that call returned [NC_NOERR]. *)
Definition NC_testmode (h : allocs) (uri : NCURI) (tag : cstring) : Z :=
  match ncurifragmentlookup uri (lit "mode") with
  | None => 0%Z
  | Some modestr =>
      match NC_getmodelist h (Some modestr) (Some None) with
      | (NC_NOERR, Some (Some modelist)) => search_tag modelist tag
      | _ => 0%Z
      end
  end.

End URI.

(** A fragment store for the examples: the key/value pairs in the order of
    the fragment, the first pair of a key being the one found. *)
Abbreviation fragments := (list (list ascii * list ascii)) (only parsing).

Fixpoint fraglookup (uri : fragments) (key : cstring) : ptr cstring :=
  match uri with
  | [] => None
  | (k, v) :: rest =>
      if list_eq_dec ascii_dec k key then Some v else fraglookup rest key
  end.

(** ** Vocabulary of the properties *)

(** Escaping then unescaping, on a machine with memory to spare. *)
Definition backslash_roundtrip (s : cstring) : outcome (ptr cstring) :=
  match NC_backslashEscape [] s with
  | Some e => NC_backslashUnescape [] (Some e)
  | None => Ret None
  end.

(** What the escaper writes for one byte. *)
Definition escape_byte (c : char) : cstring :=
  if escape_case c then [backslash; backslash] else [c].

(** What comes back for one byte after escaping and unescaping. *)
Definition collapse (c : char) : char :=
  if escape_case c then backslash else c.

(** The contract of the escaper in the words of the specification: the
    backslash is doubled, every other byte is copied. *)
Definition spec_backslashEscape (s : cstring) : cstring :=
  flat_map (fun c => if c =? backslash then [backslash; backslash] else [c]) s.

(** What the switch of the escaper writes for a byte that is not ['/'],
    ['.'] or ['@']. *)
Definition doubled_or_verbatim (c : char) : cstring :=
  if c =? backslash then [backslash; backslash] else [c].

Definition slash_dot_at (c : char) : bool :=
  (c =? "/") || (c =? ".") || (c =? "@").

(** The entity escaper in the words of the specification: a table of five
    characters and their references. *)
Definition entity_table : list (char * cstring) :=
  [ ("&", lit "&amp;"); ("<", lit "&lt;"); (">", lit "&gt;");
    (dquote, lit "&quot;"); ("'", lit "&apos;") ].

Fixpoint table_find (c : char) (t : list (char * cstring)) : option cstring :=
  match t with
  | [] => None
  | (k, e) :: t' => if k =? c then Some e else table_find c t'
  end.

Definition spec_entityEscape (s : cstring) : cstring :=
  flat_map (fun c => match table_find c entity_table with
                     | Some e => e
                     | None => [c]
                     end) s.

(** Segments put back together with one delimiter between neighbours. *)
Fixpoint interleave (d : char) (segs : list cstring) : cstring :=
  match segs with
  | [] => []
  | seg :: rest =>
      match rest with
      | [] => seg
      | _ :: _ => seg ++ d :: interleave d rest
      end
  end.

Definition starts_with (d : char) (s : cstring) : bool :=
  match s with
  | c :: _ => c =? d
  | [] => false
  end.

Definition ends_with (d : char) (s : cstring) : bool :=
  starts_with d (rev s).

(** Two delimiters next to each other somewhere in [s]. *)
Fixpoint has_adjacent (d : char) (s : cstring) : bool :=
  match s with
  | [] => false
  | a :: s' => ((a =? d) && starts_with d s') || has_adjacent d s'
  end.

(** A run that [NC_split_delim] turns into a segment: not empty, and free of
    the delimiter. *)
Definition proper_run (d : char) (seg : cstring) : bool :=
  negb (strlen seg =? 0)%nat && negb (existsb (fun c => c =? d) seg).

(** The path of a segment list in the words of the specification. *)
Definition spec_join (segs : list cstring) : cstring :=
  match segs with
  | [] => lit "/"
  | _ :: _ =>
      flat_map (fun seg => if starts_with "/" seg then seg else "/" :: seg) segs
  end.

(** Equality of two strings up to the case of the ASCII letters. *)
Definition caseless_eq (a b : cstring) : Prop :=
  map tolower a = map tolower b.

(** The backslashes that end [s], and whether the last one is left without
    a partner when they are paired off from the left. *)
Fixpoint take_while (f : char -> bool) (s : cstring) : cstring :=
  match s with
  | [] => []
  | c :: s' => if f c then c :: take_while f s' else []
  end.

Definition trailing_backslashes (s : cstring) : nat :=
  length (take_while (fun c => c =? backslash) (rev s)).

Definition ends_unpaired (s : cstring) : bool :=
  Nat.odd (trailing_backslashes s).

(** ** NC_shellUnescape *)

(** The [for] loop.  On a backslash [p[1]] is looked at, which is the
    terminator at worst; [p] steps over the backslash only when [p[1]] is
    ['#'], and the byte at [p] is copied in every case. *)
Fixpoint shellUnescape_loop (p : cstring) (q : list char) : list char :=
  match p with
  | [] => q
  | c :: p1 =>
      if c =? backslash then
        match p1 with
        | [] => shellUnescape_loop p1 (q ++ [c])
        | c1 :: p2 =>
            if c1 =? "#" then shellUnescape_loop p2 (q ++ [c1])
            else shellUnescape_loop p1 (q ++ [c])
        end
      else shellUnescape_loop p1 (q ++ [c])
  end.

Definition NC_shellUnescape (h : allocs) (esc : ptr cstring) : ptr cstring :=
  match esc with
  | None => None
  | Some e =>
      if fst (malloc h) then Some (shellUnescape_loop e []) else None
  end.

(** ** NC__testurl and NC_testpathmode *)

(** [strrchr(p, c)]: the string from the last [c] on, NULL when there is
    none; the terminator is found when [c] is NUL. *)
Fixpoint strrchr (p : cstring) (c : char) : ptr cstring :=
  match p with
  | [] => if c =? NUL then Some [] else None
  | x :: p' =>
      match strrchr p' c with
      | Some r => Some r
      | None => if x =? c then Some p else None
      end
  end.

(** Modelled from the spec: the macro [nulldup] is declared outside the
    excerpt.  It maps NULL to NULL and duplicates a string that is there
    with [strdup], which allocates and gives NULL when it cannot. *)
Definition nulldup (h : allocs) (s : ptr cstring) : ptr cstring :=
  match s with
  | None => None
  | Some s' => if fst (malloc h) then Some s' else None
  end.

(** A call either returns, or follows a NULL pointer, or uses a local
    pointer that nothing has set. *)
Inductive run (A : Type) : Type :=
| Returns (v : A)
| NullDeref
| UnsetPointer.
Arguments Returns {A} v.
Arguments NullDeref {A}.
Arguments UnsetPointer {A}.

(** The name kept from the last component [slash] of a path: cut at its
    last ['.'], unless there is none or it is the first byte
    ([dot != slash]). *)
Definition cut_extension (slash : ptr cstring) : ptr cstring :=
  let dot := match slash with
             | None => None
             | Some s => strrchr s "."
             end in
  match dot, slash with
  | Some dt, Some s =>
      if (length dt =? length s)%nat then slash
      else Some (firstn (length s - length dt) s)
  | _, _ => slash
  end.

Section Parsed.

(** [ncuri.c] and [ncuri.h] are not part of the excerpt: the parser, the
    [path] field of a parsed URI and the lookup in its fragment store are
    parameters.  [ncuriparse path] is the status returned and the pointer
    left in a caller's [uri] that held NULL before the call;
    [ncuriparse_stores path] tells whether the parser writes the caller's
    [uri] at all.  [ncurifree] is taken to accept NULL and every pointer
    that the parser stored. *)
Variable NCURI : Type.
Variable ncuriparse : ptr cstring -> ncerr * ptr NCURI.
Variable ncuriparse_stores : ptr cstring -> bool.
Variable uri_path : NCURI -> ptr cstring.
Variable ncurifragmentlookup : NCURI -> cstring -> ptr cstring.

(** The status and the caller's [*basenamep] when the call returns.  The
    local [uri] has no initial value: it holds what the parser stored, if
    the parser stored anything.  It is read on every path, by [uri->path]
    when the parser reports success and by [ncurifree(uri)] at the end. *)
Definition NC__testurl (h : allocs) (path : ptr cstring)
  (basenamep : ptr (ptr cstring)) : run (ncerr * ptr (ptr cstring)) :=
  if negb (ncuriparse_stores path) then UnsetPointer else
  match ncuriparse path with
  | (NC_NOERR, None) => NullDeref
  | (NC_NOERR, Some uri) =>
      let slash := match uri_path uri with
                   | None => None
                   | Some up => strrchr up "/"
                   end in
      let slash := match slash with
                   | None => path
                   | Some sl => Some (tl sl)
                   end in
      let slash := nulldup h slash in
      let slash := cut_extension slash in
      Returns (NC_NOERR, match basenamep with
                         | Some _ => Some slash
                         | None => None
                         end)
  | (_, _) => Returns (NC_EURL, basenamep)
  end.

(** [uri] starts as NULL here.  The status of the parser is not looked at,
    only the pointer it left. *)
Definition NC_testpathmode (h : allocs) (path : ptr cstring) (tag : cstring)
  : Z :=
  match snd (ncuriparse path) with
  | Some uri => NC_testmode NCURI ncurifragmentlookup h uri tag
  | None => 0%Z
  end.

End Parsed.

(** ** isinf and isnan

    The argument is the 64-bit pattern [ieee754.u] of the double; a cast to
    [unsigned] keeps the low 32 bits. *)

Definition to_unsigned (x : Z) : Z := (x mod 2 ^ 32)%Z.

Definition isinf (u : Z) : Z :=
  if ((Z.land (to_unsigned (Z.shiftr u 32)) 0x7fffffff =? 0x7ff00000)%Z
      && (to_unsigned u =? 0)%Z)%bool
  then 1%Z else 0%Z.


(** ** Vocabulary of the further properties *)

(** A backslash directly followed by ['#'] somewhere in [s]. *)
Fixpoint has_escaped_hash (s : cstring) : bool :=
  match s with
  | [] => false
  | c :: s' => ((c =? backslash) && starts_with "#" s') || has_escaped_hash s'
  end.

(** What a shell that escapes the octothorpe makes of [s]. *)
Definition shell_escape (s : cstring) : cstring :=
  flat_map (fun c => if c =? "#" then [backslash; c] else [c]) s.

(** Every byte of [s] behind a backslash of its own. *)
Definition prefix_all (s : cstring) : cstring :=
  flat_map (fun c => [backslash; c]) s.

Definition xml_special (c : char) : bool :=
  (c =? "<") || (c =? ">") || (c =? dquote) || (c =? "'").

(** The fields of a double: 11 bits of exponent above 52 bits of
    fraction, below the sign. *)
Definition exponent_field (u : Z) : Z := Z.land (Z.shiftr u 52) 0x7ff.
Definition fraction_field (u : Z) : Z := Z.land u (Z.ones 52).

(** * Properties *)

(** ** Backslash escaper and unescaper *)

Lemma backslashEscape_loop_flat_map (p : cstring) (q : list char) :
  backslashEscape_loop p q = q ++ flat_map escape_byte p.
Proof.
  revert q. induction p as [|c p IH]; intro q; simpl.
  - now rewrite app_nil_r.
  - unfold escape_byte at 1.
    destruct (escape_case c); rewrite IH, <- app_assoc; reflexivity.
Qed.

(** The output fits the [1+2*len] bytes that were allocated. *)
Lemma backslashEscape_loop_length (p : cstring) :
  length (backslashEscape_loop p []) <= 2 * strlen p.
Proof.
  rewrite backslashEscape_loop_flat_map. simpl. unfold strlen.
  induction p as [|c p IH]; simpl; [lia|].
  rewrite length_app. unfold escape_byte at 1.
  destruct (escape_case c); simpl; lia.
Qed.

Lemma backslashUnescape_loop_escaped (s : cstring) (q : list char) :
  backslashUnescape_loop (flat_map escape_byte s) q = Ret (q ++ map collapse s).
Proof.
  revert q. induction s as [|c s IH]; intro q; simpl.
  - now rewrite app_nil_r.
  - unfold escape_byte at 1, collapse at 1.
    destruct (escape_case c) eqn:Ec; simpl.
    + rewrite IH, <- app_assoc. reflexivity.
    + assert (Hb : (c =? backslash) = false).
      { unfold escape_case in Ec.
        destruct (c =? backslash); [discriminate | reflexivity]. }
      rewrite Hb, IH, <- app_assoc. reflexivity.
Qed.

Lemma backslash_roundtrip_collapse (s : cstring) :
  backslash_roundtrip s = Ret (Some (map collapse s)).
Proof.
  unfold backslash_roundtrip, NC_backslashEscape, NC_backslashUnescape. simpl.
  rewrite backslashEscape_loop_flat_map. simpl.
  rewrite backslashUnescape_loop_escaped. reflexivity.
Qed.

Lemma collapse_fixed (c : char) :
  collapse c = c <-> slash_dot_at c = false.
Proof.
  unfold collapse, escape_case, slash_dot_at.
  destruct (Ascii.eqb_spec c backslash) as [->|Hb]; simpl.
  - split; reflexivity.
  - destruct (Ascii.eqb_spec c "/") as [->|H1]; simpl;
      [split; discriminate|].
    destruct (Ascii.eqb_spec c ".") as [->|H2]; simpl;
      [split; discriminate|].
    destruct (Ascii.eqb_spec c "@") as [->|H3]; simpl;
      [split; discriminate|].
    split; reflexivity.
Qed.

Lemma map_collapse_fixed (s : cstring) :
  map collapse s = s <-> existsb slash_dot_at s = false.
Proof.
  induction s as [|c s IH]; simpl.
  - split; reflexivity.
  - rewrite orb_false_iff, <- IH, <- collapse_fixed. split.
    + intro E. inversion E as [[E1 E2]]. rewrite E1, E2. now split.
    + intros [E1 E2]. now rewrite E1, E2.
Qed.

(** C1.  The round trip through [NC_backslashEscape] and
    [NC_backslashUnescape] does not give the string back in general: the
    escaper writes two backslashes for each of ['/'], ['.'] and ['@'], so
    what comes back has a backslash in their place.  ["/"] comes back as one
    backslash, and a string survives the round trip exactly when it holds
    none of the three characters. *)
Theorem backslash_roundtrip_breaks :
  NC_backslashEscape [] (lit "/") = Some [backslash; backslash] /\
  NC_backslashUnescape [] (Some [backslash; backslash]) = Ret (Some [backslash]) /\
  backslash_roundtrip (lit "/") <> Ret (Some (lit "/")) /\
  (forall s, backslash_roundtrip s = Ret (Some s) <->
             existsb slash_dot_at s = false).
Proof.
  repeat split; try reflexivity.
  - vm_compute. discriminate.
  - rewrite backslash_roundtrip_collapse. intro E.
    apply map_collapse_fixed. congruence.
  - rewrite backslash_roundtrip_collapse. intro E.
    apply map_collapse_fixed in E. now rewrite E.
Qed.

(** C2, as stated, fails: ['/'] is not copied, the escaper writes two
    backslashes in its place. *)
Lemma backslashEscape_slash_not_verbatim :
  NC_backslashEscape [] (lit "a/b") = Some [ "a"; backslash; backslash; "b" ] /\
  NC_backslashEscape [] (lit "a/b") <> Some (spec_backslashEscape (lit "a/b")).
Proof. split; [reflexivity | vm_compute; discriminate]. Qed.

(** C2, amended.  Pointwise contract of [NC_backslashEscape]: a byte other
    than ['/'], ['.'] and ['@'] is written as two backslashes when it is the
    backslash and copied otherwise, between what is written for the bytes
    before it and for the bytes after it. *)
Theorem backslashEscape_pointwise (h : allocs) (s1 : cstring) (c : char)
  (s2 : cstring) :
  slash_dot_at c = false ->
  NC_backslashEscape h (s1 ++ c :: s2) =
  (if fst (malloc h)
   then Some (backslashEscape_loop s1 [] ++ doubled_or_verbatim c
              ++ backslashEscape_loop s2 [])
   else None).
Proof.
  intro Hc. unfold NC_backslashEscape.
  destruct (fst (malloc h)); [|reflexivity].
  rewrite !backslashEscape_loop_flat_map, flat_map_app. simpl.
  do 2 f_equal. f_equal.
  unfold escape_byte, doubled_or_verbatim, escape_case.
  unfold slash_dot_at in Hc.
  destruct (c =? backslash); simpl; [reflexivity|].
  now rewrite Hc.
Qed.

Lemma backslashEscape_pointwise_witness :
  slash_dot_at backslash = false /\
  NC_backslashEscape [] (lit "a" ++ backslash :: lit "b") =
  Some [ "a"; backslash; backslash; "b" ].
Proof.
  split; [reflexivity|].
  exact (backslashEscape_pointwise [] (lit "a") backslash (lit "b") eq_refl).
Defined.

Lemma take_while_app (f : char -> bool) (l1 l2 : cstring) :
  take_while f (l1 ++ l2) =
  if forallb f l1 then l1 ++ take_while f l2 else take_while f l1.
Proof.
  induction l1 as [|a l1 IH]; simpl; [reflexivity|].
  destruct (f a); simpl; [|reflexivity].
  rewrite IH. destruct (forallb f l1); reflexivity.
Qed.

Lemma take_while_all (f : char -> bool) (l : cstring) :
  forallb f l = true -> take_while f l = l.
Proof.
  induction l as [|a l IH]; simpl; [reflexivity|].
  destruct (f a); simpl; [|discriminate].
  intro H. now rewrite IH.
Qed.

Lemma forallb_rev (f : char -> bool) (l : cstring) :
  forallb f (rev l) = forallb f l.
Proof.
  induction l as [|a l IH]; simpl; [reflexivity|].
  rewrite forallb_app, IH. simpl. rewrite andb_true_r. apply andb_comm.
Qed.

Lemma trailing_backslashes_cons (c : char) (s : cstring) :
  trailing_backslashes (c :: s) =
  if forallb (fun x => x =? backslash) s
  then (if c =? backslash then S (length s) else length s)
  else trailing_backslashes s.
Proof.
  unfold trailing_backslashes. simpl.
  rewrite take_while_app, forallb_rev.
  destruct (forallb (fun x => x =? backslash) s); [|reflexivity].
  simpl. destruct (c =? backslash); simpl; rewrite length_app, length_rev;
    simpl; lia.
Qed.

Lemma trailing_backslashes_all (s : cstring) :
  forallb (fun x => x =? backslash) s = true ->
  trailing_backslashes s = length s.
Proof.
  intro H. unfold trailing_backslashes.
  rewrite take_while_all, length_rev; [reflexivity|].
  now rewrite forallb_rev.
Qed.

Lemma ends_unpaired_plain (c : char) (s : cstring) :
  (c =? backslash) = false -> ends_unpaired (c :: s) = ends_unpaired s.
Proof.
  intro Hc. unfold ends_unpaired. rewrite trailing_backslashes_cons, Hc.
  destruct (forallb (fun x => x =? backslash) s) eqn:Ha; [|reflexivity].
  now rewrite trailing_backslashes_all.
Qed.

Lemma ends_unpaired_escaped (c1 : char) (s : cstring) :
  ends_unpaired (backslash :: c1 :: s) = ends_unpaired s.
Proof.
  unfold ends_unpaired.
  rewrite trailing_backslashes_cons. simpl forallb.
  destruct (c1 =? backslash) eqn:H1; simpl andb.
  - destruct (forallb (fun x => x =? backslash) s) eqn:Ha.
    + rewrite (trailing_backslashes_all s Ha). reflexivity.
    + rewrite trailing_backslashes_cons, Ha. reflexivity.
  - now apply ends_unpaired_plain.
Qed.

Lemma backslashUnescape_loop_end (n : nat) :
  forall (p : cstring) (q : list char), length p <= n ->
    (ends_unpaired p = true -> backslashUnescape_loop p q = ReadPastEnd) /\
    (ends_unpaired p = false ->
     exists out, backslashUnescape_loop p q = Ret out /\
                 length out <= length q + length p).
Proof.
  induction n as [n IH] using lt_wf_ind.
  intros [|c [|c1 p2]] q Hn.
  - split; [discriminate|]. intros _. exists q. simpl. split; [reflexivity|lia].
  - simpl. destruct (c =? backslash) eqn:Hc.
    + split; [reflexivity|].
      unfold ends_unpaired. rewrite trailing_backslashes_cons, Hc.
      discriminate.
    + split.
      * unfold ends_unpaired. rewrite trailing_backslashes_cons, Hc.
        discriminate.
      * intros _. exists (q ++ [c]). rewrite length_app. simpl.
        split; [reflexivity|lia].
  - simpl backslashUnescape_loop. destruct (c =? backslash) eqn:Hc.
    + apply Ascii.eqb_eq in Hc. subst c. rewrite ends_unpaired_escaped.
      simpl in Hn.
      destruct (IH (length p2) ltac:(lia) p2 (q ++ [c1]) (le_n _)) as [I1 I2].
      split; [exact I1|].
      intro E. destruct (I2 E) as (out & Ho & Hl). exists out.
      split; [exact Ho|]. rewrite length_app in Hl. simpl in *. lia.
    + rewrite (ends_unpaired_plain c _ Hc).
      simpl in Hn.
      destruct (IH (length (c1 :: p2)) ltac:(simpl; lia) (c1 :: p2) (q ++ [c])
                  (le_n _)) as [I1 I2].
      split; [exact I1|].
      intro E. destruct (I2 E) as (out & Ho & Hl). exists out.
      split; [exact Ho|]. rewrite length_app in Hl. simpl in *. lia.
Qed.

(** C10.  [NC_backslashUnescape] takes every backslash for an escape
    marker and copies the byte after it, whatever it is.  When the argument
    ends in a backslash that is left without a partner (the backslashes that
    end it are odd in number), the byte copied is the terminator and the
    scan goes on reading beyond the string.  In every other case the scan
    stops at the terminator, and the result takes no more room than the
    argument. *)
Theorem backslashUnescape_reads_past_end (h : allocs) (esc : cstring) :
  fst (malloc h) = true ->
  (ends_unpaired esc = true ->
   NC_backslashUnescape h (Some esc) = ReadPastEnd) /\
  (ends_unpaired esc = false ->
   exists s, NC_backslashUnescape h (Some esc) = Ret (Some s) /\
             strlen s <= strlen esc).
Proof.
  intro Hm. unfold NC_backslashUnescape. rewrite Hm.
  destruct (backslashUnescape_loop_end (length esc) esc [] (le_n _)) as [I1 I2].
  split.
  - intro E. now rewrite (I1 E).
  - intro E. destruct (I2 E) as (out & Ho & Hl). exists out.
    rewrite Ho. split; [reflexivity | exact Hl].
Qed.

Lemma backslashUnescape_reads_past_end_witness :
  fst (malloc []) = true /\
  ends_unpaired (lit "ab" ++ [backslash]) = true /\
  NC_backslashUnescape [] (Some (lit "ab" ++ [backslash])) = ReadPastEnd.
Proof.
  split; [reflexivity|]. split; [reflexivity|].
  exact (proj1 (backslashUnescape_reads_past_end [] (lit "ab" ++ [backslash])
                  eq_refl) eq_refl).
Defined.

(** ** Entity escaper *)

Lemma entity_of_table (c : char) :
  match entity_of c with
  | None => [c]
  | Some entity => firstn (strlen entity) entity
  end =
  match table_find c entity_table with
  | Some e => e
  | None => [c]
  end.
Proof.
  unfold entity_of, entity_table, table_find.
  rewrite !(Ascii.eqb_sym _ c).
  destruct (c =? "&"); [reflexivity|].
  destruct (c =? "<"); [reflexivity|].
  destruct (c =? ">"); [reflexivity|].
  destruct (c =? dquote); [reflexivity|].
  destruct (c =? "'"); reflexivity.
Qed.

Lemma entityescape_loop_spec (p : cstring) (q : list char) :
  entityescape_loop p q = q ++ spec_entityEscape p.
Proof.
  revert q. induction p as [|c p IH]; intro q.
  - simpl. now rewrite app_nil_r.
  - unfold spec_entityEscape in *. cbn [entityescape_loop flat_map].
    rewrite <- entity_of_table.
    destruct (entity_of c); rewrite IH, <- app_assoc; reflexivity.
Qed.


(** C8.  [NC_entityescape] replaces each of [&], [<], [>], the double quote
    and the apostrophe by its entity reference and copies every other byte,
    in the order of the argument (or returns NULL when its buffer cannot be
    allocated); ["<a&b>"] becomes ["&lt;a&amp;b&gt;"]. *)
Theorem entityescape_spec :
  (forall (h : allocs) (s : cstring),
      NC_entityescape h s =
      if fst (malloc h) then Some (spec_entityEscape s) else None) /\
  NC_entityescape [] (lit "<a&b>") = Some (lit "&lt;a&amp;b&gt;").
Proof.
  split; [|reflexivity].
  intros h s. unfold NC_entityescape.
  destruct (fst (malloc h)); [|reflexivity].
  now rewrite entityescape_loop_spec.
Qed.

(** ** Segment joiner *)

Lemma join_loop_flat_map (segs : NClist) (buf : NCbytes) :
  join_loop segs buf =
  buf ++ flat_map (fun seg => if starts_with "/" seg then seg else "/" :: seg)
           segs.
Proof.
  revert buf. induction segs as [|seg segs IH]; intro buf; simpl.
  - now rewrite app_nil_r.
  - rewrite IH. unfold ncbytescat.
    destruct seg as [|c seg]; simpl.
    + rewrite app_nil_r, <- app_assoc. reflexivity.
    + destruct (c =? "/"); simpl; rewrite <- !app_assoc; reflexivity.
Qed.

(** C7.  [NC_join] gives ["/"] for the empty sequence; for any other
    sequence it writes the segments in order, each after a ['/'] unless it
    starts with one, whatever the segments hold.  It fails only for a NULL
    sequence ([NC_EINVAL]) and when its buffer cannot be allocated. *)
Theorem join_canonical :
  (forall (h : allocs) (segs : NClist) (old : ptr cstring),
      NC_join h (Some segs) (Some old) =
      if fst (malloc h) then (NC_NOERR, Some (Some (spec_join segs)))
      else (NC_ENOMEM, Some old)) /\
  (forall (h : allocs) (pathp : ptr (ptr cstring)),
      NC_join h None pathp = (NC_EINVAL, pathp)) /\
  NC_join [] (Some []) (Some None) = (NC_NOERR, Some (Some (lit "/"))) /\
  NC_join [] (Some [lit "a"; lit "b"]) (Some None) =
    (NC_NOERR, Some (Some (lit "/a/b"))) /\
  NC_join [] (Some [lit "/a"]) (Some None) = (NC_NOERR, Some (Some (lit "/a"))).
Proof.
  split; [|repeat split].
  intros h segs old. unfold NC_join.
  destruct (fst (malloc h)); [|reflexivity].
  destruct segs as [|seg segs]; [reflexivity|].
  cbn [nclistlength length Nat.eqb].
  rewrite join_loop_flat_map. reflexivity.
Qed.

(** ** Delimiter splitter *)

Lemma split_loop_cons (h : allocs) (c : char) (p' : cstring) (delim : char)
  (segments : NClist) :
  split_loop h (c :: p') delim segments =
  match split_body h (c :: p') delim segments with
  | Leave stat segs => (stat, segs)
  | Again h1 p1 segs => split_loop h1 p1 delim segs
  end.
Proof.
  simp split_loop.
  destruct (inspect (split_body h (c :: p') delim segments)) as [[stat s|h1 p1 s] E];
    simpl; rewrite E; reflexivity.
Qed.

Lemma split_loop_nil (h : allocs) (delim : char) (segments : NClist) :
  split_loop h [] delim segments = (NC_NOERR, segments).
Proof. now simp split_loop. Qed.

Lemma malloc_plentiful (h h' : allocs) (ok : bool) :
  malloc h = (ok, h') -> plentiful h = ok && plentiful h'.
Proof.
  destruct h as [|b h0]; simpl; intro E; inversion E; subst; reflexivity.
Qed.

(** Every string is a run free of the delimiter followed by nothing or by
    a string that starts with the delimiter. *)
Lemma run_decompose (d : char) (p : cstring) :
  exists run q, p = run ++ q /\
                existsb (fun c => c =? d) run = false /\
                (q = [] \/ starts_with d q = true).
Proof.
  induction p as [|a p (run & q & Ep & Hr & Hq)].
  - exists [], []. repeat split. now left.
  - destruct (a =? d) eqn:Ha.
    + exists [], (a :: p). repeat split. now right.
    + exists (a :: run), q. subst p. simpl. rewrite Ha, Hr. now repeat split.
Qed.

(** [q] as the loop body computes it, at the end of such a run. *)
Lemma scan_at (d : char) (run q : cstring) :
  existsb (fun c => c =? d) run = false ->
  q = [] \/ starts_with d q = true ->
  match strchr (run ++ q) d with
  | Some x => x
  | None => skipn (strlen (run ++ q)) (run ++ q)
  end = q.
Proof.
  intros Hr Hq. unfold strlen. induction run as [|a run IH]; simpl in *.
  - destruct Hq as [->|Hq]; simpl.
    + destruct (d =? NUL); reflexivity.
    + destruct q as [|c q]; [discriminate|]. simpl in *. now rewrite Hq.
  - apply orb_false_iff in Hr as [Ha Hr]. rewrite Ha. exact (IH Hr).
Qed.

Lemma split_body_at (h : allocs) (d : char) (run q : cstring)
  (segments : NClist) :
  existsb (fun c => c =? d) run = false ->
  q = [] \/ starts_with d q = true ->
  split_body h (run ++ q) d segments =
  if (length run =? 0)%nat then Leave NC_EURL segments
  else match malloc h with
       | (false, _) => Leave NC_ENOMEM segments
       | (true, h') => Again h' (tl q) (segments ++ [run])
       end.
Proof.
  intros Hr Hq. unfold split_body. rewrite (scan_at d run q Hr Hq).
  cbv zeta. rewrite length_app, Nat.add_sub.
  destruct (length run =? 0)%nat; [reflexivity|].
  destruct (malloc h) as [[|] h']; [|reflexivity].
  rewrite firstn_app, firstn_all, Nat.sub_diag, firstn_O, app_nil_r.
  unfold nclistpush. destruct q; reflexivity.
Qed.

Lemma has_adjacent_run (d : char) (run q : cstring) :
  existsb (fun c => c =? d) run = false ->
  has_adjacent d (run ++ q) = has_adjacent d q.
Proof.
  induction run as [|a run IH]; simpl; [reflexivity|].
  intro H. apply orb_false_iff in H as [Ha Hr]. rewrite Ha. simpl. auto.
Qed.

(** What [split_loop] leaves in the caller's list, on success and on
    failure alike: the former content, then segments that are not empty and
    are made of bytes of the string. *)
Lemma split_loop_segments (d : char) (n : nat) :
  forall (p : cstring), length p <= n ->
  forall (h : allocs) (segments : NClist),
  exists new, snd (split_loop h p d segments) = segments ++ new /\
              Forall (fun seg => 0 < strlen seg /\ incl seg p) new.
Proof.
  induction n as [|n IH]; intros [|c p'] Hn h segments;
    try (rewrite split_loop_nil; exists []; simpl; rewrite app_nil_r; now split).
  - simpl in Hn. lia.
  - rewrite split_loop_cons.
    destruct (run_decompose d (c :: p')) as (run & q & Ep & Hr & Hq).
    rewrite Ep, (split_body_at h d run q segments Hr Hq).
    destruct (length run =? 0)%nat eqn:Hl.
    { exists []. simpl. rewrite app_nil_r. now split. }
    apply Nat.eqb_neq in Hl.
    destruct (malloc h) as [[|] h'].
    2:{ exists []. simpl. rewrite app_nil_r. now split. }
    assert (Hq1 : length (tl q) <= n).
    { apply (f_equal (@length _)) in Ep. rewrite length_app in Ep.
      simpl in Ep, Hn. destruct q; simpl in *; lia. }
    destruct (IH (tl q) Hq1 h' (segments ++ [run])) as (new & Hs & Hf).
    exists (run :: new). rewrite Hs, <- app_assoc. split; [reflexivity|].
    constructor.
    + split; [unfold strlen; lia | apply incl_appl, incl_refl].
    + eapply Forall_impl; [|exact Hf]. intros seg [H1 H2]. split; [exact H1|].
      intros x Hx. apply in_or_app. right.
      destruct q; [exact (H2 x Hx) | right; exact (H2 x Hx)].
Qed.

(** A string with two delimiters in a row, or one at its start, stops the
    loop with [NC_EURL], unless an allocation fails before the empty run is
    reached. *)
Lemma split_loop_empty_run (d : char) (n : nat) :
  forall (p : cstring), length p <= n ->
  forall (h : allocs) (segments : NClist),
  starts_with d p || has_adjacent d p = true ->
  fst (split_loop h p d segments) = NC_EURL \/
  (plentiful h = false /\ fst (split_loop h p d segments) = NC_ENOMEM).
Proof.
  induction n as [|n IH]; intros [|c p'] Hn h segments Hp;
    try discriminate Hp.
  - simpl in Hn. lia.
  - rewrite split_loop_cons.
    destruct (run_decompose d (c :: p')) as (run & q & Ep & Hr & Hq).
    rewrite Ep in Hp |- *. rewrite (split_body_at h d run q segments Hr Hq).
    destruct run as [|a run]; [now left|].
    cbn [length Nat.eqb].
    destruct (malloc h) as [[|] h'] eqn:Hm; apply malloc_plentiful in Hm.
    2:{ right. rewrite Hm. now split. }
    rewrite has_adjacent_run in Hp by exact Hr.
    simpl in Hr. apply orb_false_iff in Hr as [Ha Hr].
    simpl starts_with in Hp. rewrite Ha in Hp. simpl in Hp.
    destruct q as [|x q1]; [discriminate Hp|].
    destruct Hq as [Hq|Hq]; [discriminate Hq|]. simpl in Hq.
    simpl in Hp. rewrite Hq in Hp. simpl in Hp.
    assert (Hq1 : length q1 <= n).
    { apply (f_equal (@length _)) in Ep. simpl in Ep, Hn.
      rewrite length_app in Ep. simpl in Ep. lia. }
    simpl tl.
    destruct (IH q1 Hq1 h' (segments ++ [a :: run]) Hp) as [E|[E1 E2]].
    + now left.
    + right. rewrite Hm, E1. now split.
Qed.

Lemma proper_run_inv (d : char) (seg : cstring) :
  proper_run d seg = true ->
  (length seg =? 0)%nat = false /\ existsb (fun c => c =? d) seg = false.
Proof.
  unfold proper_run, strlen. intro H. apply andb_true_iff in H as [H1 H2].
  split; [now apply negb_true_iff in H1 | now apply negb_true_iff in H2].
Qed.

(** Proper runs written one after the other with a delimiter in between,
    and possibly one more delimiter at the end, are split into these runs. *)
Lemma split_loop_interleave (d : char) (segs : NClist) :
  segs <> [] ->
  forallb (proper_run d) segs = true ->
  forall (h : allocs) (old : NClist) (tail : cstring),
  plentiful h = true ->
  tail = [] \/ tail = [d] ->
  split_loop h (interleave d segs ++ tail) d old = (NC_NOERR, old ++ segs).
Proof.
  induction segs as [|seg rest IH]; [congruence|].
  intros _ Hall h old tail Hh Ht.
  simpl in Hall. apply andb_true_iff in Hall as [Hseg Hrest].
  destruct (proper_run_inv d seg Hseg) as [Hl Hfree].
  assert (Hstep : forall q, q = [] \/ starts_with d q = true ->
            split_loop h (seg ++ q) d old =
            split_loop (snd (malloc h)) (tl q) d (old ++ [seg])).
  { intros q Hq. destruct seg as [|c seg']; [discriminate Hl|].
    change ((c :: seg') ++ q) with (c :: (seg' ++ q)).
    rewrite split_loop_cons.
    change (c :: (seg' ++ q)) with ((c :: seg') ++ q).
    rewrite (split_body_at h d (c :: seg') q old Hfree Hq), Hl.
    destruct (malloc h) as [ok h'] eqn:Hm.
    apply malloc_plentiful in Hm. rewrite Hh in Hm.
    symmetry in Hm. apply andb_true_iff in Hm as [-> _]. reflexivity. }
  assert (Hh' : plentiful (snd (malloc h)) = true).
  { destruct (malloc h) as [ok h'] eqn:Hm. simpl.
    apply malloc_plentiful in Hm. rewrite Hh in Hm.
    symmetry in Hm. now apply andb_true_iff in Hm as [_ ->]. }
  destruct rest as [|r rest'].
  - simpl interleave. rewrite Hstep.
    + replace (tl tail) with (@nil ascii) by (destruct Ht; subst; reflexivity).
      now rewrite split_loop_nil.
    + destruct Ht as [->| ->]; [now left | right; simpl; apply Ascii.eqb_refl].
  - change (interleave d (seg :: r :: rest'))
      with (seg ++ d :: interleave d (r :: rest')).
    rewrite <- app_assoc. rewrite Hstep.
    + simpl tl. rewrite (IH ltac:(discriminate) Hrest _ _ tail Hh' Ht).
      now rewrite <- app_assoc.
    + right. simpl. apply Ascii.eqb_refl.
Qed.

Lemma starts_with_app (d : char) (l m : cstring) :
  l <> [] -> starts_with d (l ++ m) = starts_with d l.
Proof. destruct l; [congruence | reflexivity]. Qed.

(** A string that neither starts nor ends with the delimiter and has no
    two delimiters in a row is split, and its segments put together with
    the delimiter give the string back. *)
Lemma split_loop_rebuild (d : char) (n : nat) :
  forall (p : cstring), length p <= n ->
  forall (h : allocs) (old : NClist),
  p <> [] ->
  starts_with d p = false ->
  ends_with d p = false ->
  has_adjacent d p = false ->
  plentiful h = true ->
  exists new, split_loop h p d old = (NC_NOERR, old ++ new) /\
              new <> [] /\ interleave d new = p.
Proof.
  induction n as [|n IH]; intros [|c p'] Hn h old Hne Hs He Ha Hh;
    try congruence.
  - simpl in Hn. lia.
  - rewrite split_loop_cons.
    destruct (run_decompose d (c :: p')) as (run & q & Ep & Hr & Hq).
    rewrite Ep in Hs, He, Ha |- *.
    rewrite (split_body_at h d run q old Hr Hq).
    destruct run as [|a run].
    { simpl in *. destruct Hq as [->|Hq]; [discriminate Ep | congruence]. }
    cbn [length Nat.eqb].
    destruct (malloc h) as [ok h'] eqn:Hm.
    apply malloc_plentiful in Hm. rewrite Hh in Hm.
    symmetry in Hm. apply andb_true_iff in Hm as [-> Hh'].
    destruct q as [|x q1].
    + exists [a :: run]. simpl tl. rewrite split_loop_nil, app_nil_r.
      repeat split. discriminate.
    + destruct Hq as [Hq|Hq]; [discriminate Hq|]. simpl in Hq.
      apply Ascii.eqb_eq in Hq. subst x.
      rewrite has_adjacent_run in Ha by exact Hr.
      simpl in Ha. rewrite Ascii.eqb_refl in Ha. simpl in Ha.
      apply orb_false_iff in Ha as [Ha1 Ha2].
      unfold ends_with in He. rewrite rev_app_distr in He. simpl rev in He.
      rewrite <- !app_assoc in He.
      assert (Hq1 : q1 <> []).
      { intro E. subst q1. simpl in He. rewrite Ascii.eqb_refl in He.
        discriminate. }
      rewrite starts_with_app in He
        by (intro E; apply Hq1; apply (f_equal (@rev _)) in E;
            rewrite rev_involutive in E; exact E).
      assert (Hl : length q1 <= n).
      { apply (f_equal (@length _)) in Ep. simpl in Ep, Hn.
        rewrite length_app in Ep. simpl in Ep. lia. }
      simpl tl.
      destruct (IH q1 Hl h' (old ++ [a :: run]) Hq1 Ha1 He Ha2 Hh')
        as (new & Hsplit & Hnew & Hi).
      exists ((a :: run) :: new). rewrite Hsplit, <- app_assoc.
      repeat split; [discriminate|].
      destruct new as [|s0 new]; [congruence|].
      change (interleave d ((a :: run) :: s0 :: new))
        with ((a :: run) ++ d :: interleave d (s0 :: new)).
      now rewrite Hi.
Qed.

(** [NC_split_delim] on a list and a string that are there: the loop runs
    on the string without its leading delimiter. *)
Lemma NC_split_delim_loop (h : allocs) (arg : cstring) (d : char)
  (segments : NClist) :
  NC_split_delim h (Some arg) d (Some segments) =
  (fst (split_loop h (if starts_with d arg then tl arg else arg) d segments),
   Some (snd (split_loop h (if starts_with d arg then tl arg else arg) d
                segments))).
Proof.
  unfold NC_split_delim, strlen. destruct arg as [|c p1]; simpl.
  - now rewrite split_loop_nil.
  - destruct (c =? d); destruct (split_loop h _ d segments); reflexivity.
Qed.

(** The segments added to the caller's list, on success and on failure:
    none is empty and all are made of bytes of the argument. *)
Lemma NC_split_delim_appends (h : allocs) (arg : cstring) (d : char)
  (segments : NClist) :
  exists new,
    snd (NC_split_delim h (Some arg) d (Some segments)) =
      Some (segments ++ new) /\
    Forall (fun seg => 0 < strlen seg /\ incl seg arg) new.
Proof.
  rewrite NC_split_delim_loop. simpl snd.
  set (p := if starts_with d arg then tl arg else arg).
  destruct (split_loop_segments d (length p) p (le_n _) h segments)
    as (new & Hs & Hf).
  exists new. rewrite Hs. split; [reflexivity|].
  eapply Forall_impl; [|exact Hf]. intros seg [H1 H2]. split; [exact H1|].
  intros x Hx. apply H2 in Hx. unfold p in Hx.
  destruct (starts_with d arg); [|exact Hx].
  destruct arg; [exact Hx | right; exact Hx].
Qed.

Lemma NC_split_delim_empty_run (h : allocs) (arg : cstring) (d : char)
  (segments : NClist) :
  has_adjacent d arg = true ->
  fst (NC_split_delim h (Some arg) d (Some segments)) = NC_EURL \/
  (plentiful h = false /\
   fst (NC_split_delim h (Some arg) d (Some segments)) = NC_ENOMEM).
Proof.
  intro Ha. rewrite NC_split_delim_loop. simpl fst.
  set (p := if starts_with d arg then tl arg else arg).
  apply (split_loop_empty_run d (length p) p (le_n _)).
  unfold p. destruct arg as [|c p1]; [discriminate Ha|]. simpl in Ha |- *.
  destruct (c =? d) eqn:E; simpl in *; rewrite ?E; simpl; exact Ha.
Qed.

(** C3.  Whatever the input, the segments that [NC_split_delim] adds to
    the caller's list are never empty.  When the string has two delimiters
    in a row the call fails; the status is [NC_EURL] (MalformedInput) unless
    an allocation failed first. *)
Theorem split_rejects_empty_segments (h : allocs) (arg : cstring) (d : char)
  (segments : NClist) :
  (exists new,
      snd (NC_split_delim h (Some arg) d (Some segments)) =
        Some (segments ++ new) /\
      Forall (fun seg => 0 < strlen seg) new) /\
  (has_adjacent d arg = true ->
   fst (NC_split_delim h (Some arg) d (Some segments)) <> NC_NOERR /\
   (plentiful h = true ->
    fst (NC_split_delim h (Some arg) d (Some segments)) = NC_EURL)).
Proof.
  split.
  - destruct (NC_split_delim_appends h arg d segments) as (new & Hs & Hf).
    exists new. split; [exact Hs|].
    eapply Forall_impl; [|exact Hf]. now intros seg [H _].
  - intro Ha.
    destruct (NC_split_delim_empty_run h arg d segments Ha) as [E|[E1 E2]].
    + rewrite E. split; [discriminate | reflexivity].
    + rewrite E2. split; [discriminate | congruence].
Qed.

Lemma split_rejects_empty_segments_witness :
  has_adjacent "," (lit "a,,b") = true /\
  plentiful [] = true /\
  fst (NC_split_delim [] (Some (lit "a,,b")) "," (Some [])) = NC_EURL.
Proof.
  split; [reflexivity|]. split; [reflexivity|].
  exact (proj2 (proj2 (split_rejects_empty_segments [] (lit "a,,b") "," [])
                  eq_refl) eq_refl).
Defined.

(** C6.  A string that is not empty, neither starts nor ends with the
    delimiter and has no two delimiters in a row is split without error, and
    the segments added to the list, put together with one delimiter between
    neighbours, are the string. *)
Theorem split_rebuilds (h : allocs) (s : cstring) (d : char)
  (segments : NClist) :
  plentiful h = true ->
  0 < strlen s ->
  starts_with d s = false ->
  ends_with d s = false ->
  has_adjacent d s = false ->
  exists segs,
    NC_split_delim h (Some s) d (Some segments) =
      (NC_NOERR, Some (segments ++ segs)) /\
    interleave d segs = s.
Proof.
  intros Hh Hl Hs He Ha. rewrite NC_split_delim_loop, Hs.
  assert (Hne : s <> []) by (destruct s; [simpl in Hl; lia | discriminate]).
  destruct (split_loop_rebuild d (length s) s (le_n _) h segments Hne Hs He
              Ha Hh)
    as (new & Hsplit & _ & Hi).
  exists new. rewrite Hsplit. now split.
Qed.

Lemma split_rebuilds_witness :
  plentiful [] = true /\
  0 < strlen (lit "dap4,bytes") /\
  starts_with "," (lit "dap4,bytes") = false /\
  ends_with "," (lit "dap4,bytes") = false /\
  has_adjacent "," (lit "dap4,bytes") = false /\
  exists segs,
    NC_split_delim [] (Some (lit "dap4,bytes")) "," (Some []) =
      (NC_NOERR, Some ([] ++ segs)) /\
    interleave "," segs = lit "dap4,bytes".
Proof.
  assert (Hl : 0 < strlen (lit "dap4,bytes")) by (vm_compute; lia).
  repeat (split; [first [reflexivity | exact Hl]|]).
  exact (split_rebuilds [] (lit "dap4,bytes") "," [] eq_refl Hl eq_refl
           eq_refl eq_refl).
Defined.

(** C9.  A delimiter at the end of the string is accepted: proper runs
    separated by single delimiters and followed by one more delimiter are
    split into exactly these runs, without error; the same holds when the
    string also starts with the one delimiter that is skipped. *)
Theorem split_trailing_delim (h : allocs) (d : char) (segs : NClist)
  (segments : NClist) :
  plentiful h = true ->
  forallb (proper_run d) segs = true ->
  NC_split_delim h (Some (interleave d segs ++ [d])) d (Some segments) =
    (NC_NOERR, Some (segments ++ segs)) /\
  (segs <> [] ->
   NC_split_delim h (Some (d :: interleave d segs ++ [d])) d (Some segments) =
     (NC_NOERR, Some (segments ++ segs))).
Proof.
  intros Hh Hall. split.
  - rewrite NC_split_delim_loop.
    destruct segs as [|seg rest].
    + simpl. rewrite Ascii.eqb_refl. simpl.
      now rewrite split_loop_nil, app_nil_r.
    + assert (Hs : starts_with d (interleave d (seg :: rest) ++ [d]) = false).
      { simpl in Hall. apply andb_true_iff in Hall as [Hseg _].
        destruct (proper_run_inv d seg Hseg) as [Hl Hfree].
        destruct seg as [|c seg']; [discriminate Hl|].
        simpl in Hfree. apply orb_false_iff in Hfree as [Hc _].
        destruct rest; simpl; exact Hc. }
      rewrite Hs.
      rewrite (split_loop_interleave d (seg :: rest) ltac:(discriminate) Hall
                 h segments [d] Hh (or_intror eq_refl)).
      reflexivity.
  - intro Hne. rewrite NC_split_delim_loop.
    cbn [starts_with tl]. rewrite Ascii.eqb_refl.
    rewrite (split_loop_interleave d segs Hne Hall h segments [d] Hh
               (or_intror eq_refl)).
    reflexivity.
Qed.

Lemma split_trailing_delim_witness :
  NC_split_delim [] (Some (lit "a,")) "," (Some []) =
  (NC_NOERR, Some [lit "a"]).
Proof.
  exact (proj1 (split_trailing_delim [] "," [lit "a"] [] eq_refl eq_refl)).
Defined.

(** C5, as stated, fails: [NC_split_delim] pushes each segment on the
    caller's list as soon as it is cut and does not take it back.  After
    the failed parse of ["a,,b"], and after an allocation failure on the
    second segment of ["a,b"], the list holds ["a"]. *)
Lemma split_failure_keeps_segments :
  NC_split_delim [] (Some (lit "a,,b")) "," (Some []) =
    (NC_EURL, Some [lit "a"]) /\
  NC_split_delim [true; false] (Some (lit "a,b")) "," (Some []) =
    (NC_ENOMEM, Some [lit "a"]) /\
  snd (NC_split_delim [] (Some (lit "a,,b")) "," (Some [])) <> Some [].
Proof. repeat split; [reflexivity .. | vm_compute; discriminate]. Qed.

(** The allocations before the [k]-th one (from 0) all succeed, and the
    [k]-th fails. *)
Lemma malloc_nth (h h' : allocs) (ok : bool) :
  malloc h = (ok, h') ->
  nth 0 h true = ok /\
  (forall k, nth (S k) h true = nth k h' true) /\
  (forall k, plentiful (firstn (S k) h) = ok && plentiful (firstn k h')).
Proof.
  destruct h as [|b h0]; simpl; intro E; inversion E; subst.
  - repeat split; intro k; destruct k; reflexivity.
  - repeat split; intro k; reflexivity.
Qed.

(** Where a failed [split_loop] stops and what it leaves: the proper runs
    that come before the point of failure, each followed by its delimiter,
    have been pushed, all of them and no other; what is left of the string
    starts with a delimiter ([NC_EURL]) or with the run whose allocation
    failed ([NC_ENOMEM]). *)
Lemma split_loop_failure (d : char) (n : nat) :
  forall (p : cstring), length p <= n ->
  forall (h : allocs) (segments : NClist),
  fst (split_loop h p d segments) <> NC_NOERR ->
  exists kept rest,
    snd (split_loop h p d segments) = segments ++ kept /\
    forallb (proper_run d) kept = true /\
    p = flat_map (fun run => run ++ [d]) kept ++ rest /\
    plentiful (firstn (length kept) h) = true /\
    ((fst (split_loop h p d segments) = NC_EURL /\
      starts_with d rest = true) \/
     (fst (split_loop h p d segments) = NC_ENOMEM /\
      0 < strlen rest /\ starts_with d rest = false /\
      nth (length kept) h true = false)).
Proof.
  induction n as [|n IH]; intros [|c p'] Hn h segments Hf;
    try (rewrite split_loop_nil in Hf; now destruct Hf).
  - simpl in Hn. lia.
  - rewrite split_loop_cons in Hf |- *.
    destruct (run_decompose d (c :: p')) as (run & q & Ep & Hr & Hq).
    rewrite Ep in Hf |- *.
    rewrite (split_body_at h d run q segments Hr Hq) in Hf |- *.
    destruct run as [|a run].
    { exists [], q. cbn [length Nat.eqb fst snd]. rewrite app_nil_r.
      repeat split. left. split; [reflexivity|].
      destruct Hq as [->|Hq]; [discriminate Ep | exact Hq]. }
    cbn [length Nat.eqb] in Hf |- *.
    assert (Hrun : proper_run d (a :: run) = true)
      by (unfold proper_run; now rewrite Hr).
    assert (Ha : (a =? d) = false)
      by (simpl in Hr; now apply orb_false_iff in Hr as [Ha _]).
    destruct (malloc h) as [[|] h'] eqn:Hm;
      destruct (malloc_nth h h' _ Hm) as (M0 & MS & MP).
    2:{ exists [], ((a :: run) ++ q). cbn [fst snd]. rewrite app_nil_r.
        repeat split. right. repeat split.
        - unfold strlen. simpl. lia.
        - exact Ha.
        - exact M0. }
    destruct q as [|x q1].
    { simpl tl in Hf. rewrite split_loop_nil in Hf. now destruct Hf. }
    destruct Hq as [Hq|Hq]; [discriminate Hq|]. simpl in Hq.
    apply Ascii.eqb_eq in Hq. subst x. simpl tl in Hf |- *.
    assert (Hl : length q1 <= n).
    { apply (f_equal (@length _)) in Ep. simpl in Ep, Hn.
      rewrite length_app in Ep. simpl in Ep. lia. }
    destruct (IH q1 Hl h' (segments ++ [a :: run]) Hf)
      as (kept & rest & Hs & Hp & Hi & Hpl & Hst).
    exists ((a :: run) :: kept), rest.
    rewrite Hs, <- app_assoc. split; [reflexivity|].
    split; [cbn [forallb]; now rewrite Hrun, Hp|].
    split.
    { cbn [flat_map]. rewrite <- !app_assoc. simpl. now rewrite <- Hi. }
    split; [cbn [length]; now rewrite MP, Hpl|].
    destruct Hst as [Hst|(E1 & E2 & E3 & E4)]; [now left|].
    right. repeat split; try assumption.
    cbn [length]. now rewrite MS.
Qed.

(** C5, amended.  On failure [NC_getmodelist] leaves the caller's list
    pointer as it was, [NC_join] leaves the caller's path pointer as it was,
    and the escapers return NULL.  [NC_split_delim] does not roll back: when
    it fails, the caller's list holds its former content in place and in
    order, followed by exactly the segments cut before the failure.  These
    are the proper runs of the string (less its one leading delimiter) that
    come, each with its delimiter, before the point where the call stopped:
    an empty run for [NC_EURL], the run whose allocation failed for
    [NC_ENOMEM]. *)
Theorem failure_leaves_no_output (h : allocs) :
  (forall (modestr : ptr cstring) (modelistp : ptr (ptr NClist)),
      fst (NC_getmodelist h modestr modelistp) <> NC_NOERR ->
      snd (NC_getmodelist h modestr modelistp) = modelistp) /\
  (forall (segments : ptr NClist) (pathp : ptr (ptr cstring)),
      fst (NC_join h segments pathp) <> NC_NOERR ->
      snd (NC_join h segments pathp) = pathp) /\
  (forall (s : cstring),
      fst (malloc h) = false ->
      NC_backslashEscape h s = None /\ NC_entityescape h s = None /\
      NC_backslashUnescape h (Some s) = Ret None) /\
  (forall (arg : cstring) (d : char) (segments : NClist),
      fst (NC_split_delim h (Some arg) d (Some segments)) <> NC_NOERR ->
      exists kept rest,
        snd (NC_split_delim h (Some arg) d (Some segments)) =
          Some (segments ++ kept) /\
        forallb (proper_run d) kept = true /\
        (if starts_with d arg then tl arg else arg) =
          flat_map (fun run => run ++ [d]) kept ++ rest /\
        plentiful (firstn (length kept) h) = true /\
        ((fst (NC_split_delim h (Some arg) d (Some segments)) = NC_EURL /\
          starts_with d rest = true) \/
         (fst (NC_split_delim h (Some arg) d (Some segments)) = NC_ENOMEM /\
          0 < strlen rest /\ starts_with d rest = false /\
          nth (length kept) h true = false))).
Proof.
  repeat split.
  - intros modestr modelistp. unfold NC_getmodelist.
    destruct (match modestr with
              | Some s => _
              | None => _
              end) as [[] modelist]; simpl; congruence.
  - intros segments pathp. unfold NC_join.
    destruct segments; [|reflexivity].
    destruct (fst (malloc h)); simpl; congruence.
  - unfold NC_backslashEscape. now rewrite H.
  - unfold NC_entityescape. now rewrite H.
  - unfold NC_backslashUnescape. now rewrite H.
  - intros arg d segments. rewrite NC_split_delim_loop.
    cbn [fst snd]. set (p := if starts_with d arg then tl arg else arg).
    intro Hf.
    destruct (split_loop_failure d (length p) p (le_n _) h segments Hf)
      as (kept & rest & Hs & Hp & Hi & Hpl & Hst).
    exists kept, rest. rewrite Hs. now repeat split.
Qed.

Lemma failure_leaves_no_output_witness :
  (fst (NC_getmodelist [] (Some (lit "a,,b")) (Some None)) <> NC_NOERR /\
   snd (NC_getmodelist [] (Some (lit "a,,b")) (Some None)) = Some None) /\
  (fst (NC_split_delim [] (Some (lit "a,,b")) "," (Some [])) <> NC_NOERR /\
   exists kept rest,
     snd (NC_split_delim [] (Some (lit "a,,b")) "," (Some [])) =
       Some ([] ++ kept) /\
     forallb (proper_run ",") kept = true /\
     lit "a,,b" = flat_map (fun run => run ++ [","]) kept ++ rest /\
     plentiful (firstn (length kept) []) = true /\
     ((fst (NC_split_delim [] (Some (lit "a,,b")) "," (Some [])) = NC_EURL /\
       starts_with "," rest = true) \/
      (fst (NC_split_delim [] (Some (lit "a,,b")) "," (Some [])) = NC_ENOMEM /\
       0 < strlen rest /\ starts_with "," rest = false /\
       nth (length kept) [] true = false))).
Proof.
  assert (H : fst (NC_getmodelist [] (Some (lit "a,,b")) (Some None))
              <> NC_NOERR) by (vm_compute; discriminate).
  assert (H' : fst (NC_split_delim [] (Some (lit "a,,b")) "," (Some []))
               <> NC_NOERR) by (vm_compute; discriminate).
  split; (split; [assumption|]).
  - exact (proj1 (failure_leaves_no_output []) _ _ H).
  - exact (proj2 (proj2 (proj2 (failure_leaves_no_output [])))
             (lit "a,,b") "," [] H').
Defined.

(** ** Mode tags *)

Lemma uchar_inj (a b : char) : uchar a = uchar b -> a = b.
Proof.
  unfold uchar. intro H. apply Nat2Z.inj in H.
  rewrite <- (ascii_nat_embedding a), <- (ascii_nat_embedding b).
  now rewrite H.
Qed.

Lemma tolower_NUL (c : char) : tolower c = NUL -> c = NUL.
Proof.
  unfold tolower.
  destruct ((65 <=? nat_of_ascii c)%nat && (nat_of_ascii c <=? 90)%nat) eqn:E;
    [|trivial].
  apply andb_true_iff in E as [E1 E2].
  apply Nat.leb_le in E1, E2. intro H.
  apply (f_equal nat_of_ascii) in H.
  rewrite nat_ascii_embedding in H by lia.
  change (nat_of_ascii NUL) with 0 in H. lia.
Qed.

Lemma nonul_cons (c : char) (s : cstring) :
  nonul (c :: s) = true <-> c <> NUL /\ nonul s = true.
Proof.
  unfold nonul. simpl. rewrite andb_true_iff, negb_true_iff, Ascii.eqb_neq.
  reflexivity.
Qed.

(** On C strings [strcasecmp] returns 0 exactly for strings that are equal
    up to the case of the letters. *)
Lemma strcasecmp_zero (a b : cstring) :
  nonul a = true -> nonul b = true ->
  (strcasecmp a b = 0%Z <-> caseless_eq a b).
Proof.
  unfold caseless_eq. revert b.
  induction a as [|c1 a IH]; intros [|c2 b] Ha Hb; simpl.
  - split; reflexivity.
  - apply nonul_cons in Hb as [Hc _]. split; [|discriminate].
    intro H. exfalso. apply Hc, tolower_NUL, uchar_inj.
    change (uchar NUL) with 0%Z. lia.
  - apply nonul_cons in Ha as [Hc _]. split; [|discriminate].
    intro H. exfalso. apply Hc, tolower_NUL, uchar_inj.
    change (uchar NUL) with 0%Z. lia.
  - apply nonul_cons in Ha as [_ Ha]. apply nonul_cons in Hb as [_ Hb].
    destruct (Ascii.eqb_spec (tolower c1) (tolower c2)) as [E|E].
    + rewrite (IH b Ha Hb), E. split; [congruence|].
      intro H. now inversion H.
    + split.
      * intro H. exfalso. apply E, uchar_inj. lia.
      * intro H. inversion H. contradiction.
Qed.

Lemma search_tag_found (modelist : NClist) (tag : cstring) :
  (search_tag modelist tag = 1%Z <->
   Exists (fun mode => strcasecmp mode tag = 0%Z) modelist) /\
  (search_tag modelist tag = 1%Z \/ search_tag modelist tag = 0%Z).
Proof.
  induction modelist as [|mode rest [IH1 IH2]]; simpl.
  - split; [|now right]. split; [discriminate|]. intro H. inversion H.
  - destruct (Z.eqb_spec (strcasecmp mode tag) 0) as [E|E].
    + split; [|now left]. split; [|reflexivity]. intros _. now left.
    + split; [|exact IH2]. rewrite IH1. split.
      * intro H. now right.
      * intro H. inversion H; [contradiction | assumption].
Qed.

(** [NC_getmodelist] on a mode string and a pointer that are there. *)
Lemma NC_getmodelist_split (h : allocs) (modestr : cstring)
  (old : ptr NClist) :
  NC_getmodelist h (Some modestr) (Some old) =
  match NC_split_delim h (Some modestr) "," (Some []) with
  | (NC_NOERR, modelist) => (NC_NOERR, Some modelist)
  | (stat, _) => (stat, Some old)
  end.
Proof.
  unfold NC_getmodelist, nclistnew.
  destruct modestr as [|c s]; [reflexivity|].
  cbn [strlen length Nat.eqb].
  destruct (NC_split_delim h (Some (c :: s)) "," (Some [])) as [[] l];
    reflexivity.
Qed.

Lemma incl_nonul (seg s : cstring) :
  incl seg s -> nonul s = true -> nonul seg = true.
Proof.
  unfold nonul. rewrite !forallb_forall. intros Hi Hs x Hx.
  apply Hs, Hi, Hx.
Qed.

Section ModeTag.

Variable NCURI : Type.
Variable ncurifragmentlookup : NCURI -> cstring -> ptr cstring.

(** C4.  For a tag and a mode value that are C strings, [NC_testmode]
    returns 1 exactly when the fragment store has a value under "mode",
    that value is split at the commas without error, and one of the
    segments equals the tag up to the case of the letters.  In every other
    case it returns 0: in particular when there is no "mode" key, and when
    the value has two commas in a row, the failed split not being
    reported. *)
Theorem testmode_spec (h : allocs) (uri : NCURI) (tag : cstring) :
  nonul tag = true ->
  (forall v, ncurifragmentlookup uri (lit "mode") = Some v ->
             nonul v = true) ->
  (NC_testmode NCURI ncurifragmentlookup h uri tag = 1%Z <->
   exists v segs,
     ncurifragmentlookup uri (lit "mode") = Some v /\
     NC_split_delim h (Some v) "," (Some []) = (NC_NOERR, Some segs) /\
     Exists (fun seg => caseless_eq seg tag) segs) /\
  (NC_testmode NCURI ncurifragmentlookup h uri tag = 1%Z \/
   NC_testmode NCURI ncurifragmentlookup h uri tag = 0%Z) /\
  (ncurifragmentlookup uri (lit "mode") = None ->
   NC_testmode NCURI ncurifragmentlookup h uri tag = 0%Z) /\
  (forall v, ncurifragmentlookup uri (lit "mode") = Some v ->
             has_adjacent "," v = true ->
             NC_testmode NCURI ncurifragmentlookup h uri tag = 0%Z).
Proof.
  intros Htag Hval. unfold NC_testmode.
  destruct (ncurifragmentlookup uri (lit "mode")) as [v|] eqn:Hlook.
  2:{ repeat split; try discriminate; auto.
      intros (v & segs & Hv & _). discriminate Hv. }
  specialize (Hval v eq_refl).
  rewrite NC_getmodelist_split.
  destruct (NC_split_delim_appends h v "," []) as (new & Hs & Hf).
  destruct (NC_split_delim h (Some v) "," (Some [])) as [stat l] eqn:Hsplit.
  simpl in Hs. subst l. simpl app.
  assert (Hnew : Exists (fun seg => strcasecmp seg tag = 0%Z) new
                 <-> Exists (fun seg => caseless_eq seg tag) new).
  { rewrite !Exists_exists. split; intros (seg & Hin & Hseg);
      exists seg; (split; [exact Hin|]);
      rewrite Forall_forall in Hf; destruct (Hf seg Hin) as [_ Hincl];
      apply (strcasecmp_zero seg tag (incl_nonul seg v Hincl Hval) Htag);
      exact Hseg. }
  destruct (search_tag_found new tag) as [S1 S2].
  assert (Hbad : has_adjacent "," v = true -> stat <> NC_NOERR).
  { intro Ha.
    destruct (NC_split_delim_empty_run h v "," [] Ha) as [E|[_ E]];
      rewrite Hsplit in E; simpl in E; subst stat; discriminate. }
  destruct stat.
  - split; [|split; [exact S2 | split; [discriminate|]]].
    + rewrite S1, Hnew. split.
      * intro H. exists v, new. now repeat split.
      * intros (v' & segs & Hv & Hsp & Hex).
        assert (v' = v) by congruence. subst v'.
        assert (segs = new) by congruence. subst segs. exact Hex.
    + intros v' Hv Ha. assert (v' = v) by congruence. subst v'.
      now destruct (Hbad Ha).
  - repeat split; try discriminate; auto.
    intros (v' & segs & Hv & Hsp & _).
    assert (v' = v) by congruence. subst v'. congruence.
  - repeat split; try discriminate; auto.
    intros (v' & segs & Hv & Hsp & _).
    assert (v' = v) by congruence. subst v'. congruence.
  - repeat split; try discriminate; auto.
    intros (v' & segs & Hv & Hsp & _).
    assert (v' = v) by congruence. subst v'. congruence.
  - repeat split; try discriminate; auto.
    intros (v' & segs & Hv & Hsp & _).
    assert (v' = v) by congruence. subst v'. congruence.
Qed.

End ModeTag.

Lemma testmode_spec_witness :
  nonul (lit "DAP4") = true /\
  (forall v, fraglookup [(lit "mode", lit "dap4,bytes")] (lit "mode") = Some v ->
             nonul v = true) /\
  exists v segs,
    fraglookup [(lit "mode", lit "dap4,bytes")] (lit "mode") = Some v /\
    NC_split_delim [] (Some v) "," (Some []) = (NC_NOERR, Some segs) /\
    Exists (fun seg => caseless_eq seg (lit "DAP4")) segs.
Proof.
  assert (Hval : forall v,
             fraglookup [(lit "mode", lit "dap4,bytes")] (lit "mode") = Some v ->
             nonul v = true).
  { intros v H. vm_compute in H. injection H as <-. reflexivity. }
  split; [reflexivity|]. split; [exact Hval|].
  apply (proj1 (testmode_spec _ fraglookup []
                  [(lit "mode", lit "dap4,bytes")] (lit "DAP4") eq_refl Hval)).
  reflexivity.
Defined.

(** The samples of the specification: fragment [mode=dap4,bytes]. *)
Example testmode_dap4 :
  NC_testmode _ fraglookup [] [(lit "mode", lit "dap4,bytes")] (lit "DAP4")
  = 1%Z.
Proof. reflexivity. Qed.

Example testmode_xml :
  NC_testmode _ fraglookup [] [(lit "mode", lit "dap4,bytes")] (lit "xml")
  = 0%Z.
Proof. reflexivity. Qed.

Example testmode_no_mode :
  NC_testmode _ fraglookup [] [(lit "proto", lit "https")] (lit "dap4") = 0%Z.
Proof. reflexivity. Qed.

Example testmode_malformed :
  NC_testmode _ fraglookup [] [(lit "mode", lit "dap4,,bytes")] (lit "dap4")
  = 0%Z.
Proof. reflexivity. Qed.

(** * Further properties *)

(** ** Shell unescaper *)

Lemma shellUnescape_loop_plain (s : cstring) (q : list char) :
  has_escaped_hash s = false -> shellUnescape_loop s q = q ++ s.
Proof.
  revert q. induction s as [|c s IH]; intros q H; simpl in *.
  - now rewrite app_nil_r.
  - apply orb_false_iff in H as [H1 H2].
    assert (E : shellUnescape_loop s (q ++ [c]) = q ++ c :: s)
      by (rewrite (IH _ H2), <- app_assoc; reflexivity).
    destruct (c =? backslash); [|exact E].
    destruct s as [|c1 s]; [exact E|].
    simpl in H1. now rewrite H1.
Qed.

(** [NC_shellUnescape] leaves alone a string in which no backslash stands
    directly before a ['#']: every other backslash is kept. *)
Theorem shellUnescape_fixed (h : allocs) (s : cstring) :
  has_escaped_hash s = false ->
  NC_shellUnescape h (Some s) = if fst (malloc h) then Some s else None.
Proof.
  intro H. unfold NC_shellUnescape.
  now rewrite (shellUnescape_loop_plain s [] H).
Qed.

Lemma shellUnescape_fixed_witness :
  has_escaped_hash (backslash :: lit "x#" ++ [backslash]) = false /\
  NC_shellUnescape [] (Some (backslash :: lit "x#" ++ [backslash])) =
  Some (backslash :: lit "x#" ++ [backslash]).
Proof.
  split; [reflexivity|].
  exact (shellUnescape_fixed [] (backslash :: lit "x#" ++ [backslash]) eq_refl).
Defined.

Lemma shell_escape_no_hash_first (s : cstring) :
  starts_with "#" (shell_escape s) = false.
Proof.
  destruct s as [|c s]; [reflexivity|]. unfold shell_escape. simpl.
  destruct (c =? "#") eqn:E; simpl; [reflexivity | exact E].
Qed.

Lemma shellUnescape_loop_shell_escape (s : cstring) (q : list char) :
  shellUnescape_loop (shell_escape s) q = q ++ s.
Proof.
  revert q. induction s as [|c s IH]; intro q.
  - simpl. now rewrite app_nil_r.
  - change (shell_escape (c :: s))
      with ((if c =? "#" then [backslash; c] else [c]) ++ shell_escape s).
    destruct (Ascii.eqb_spec c "#") as [->|Hc].
    + simpl. rewrite IH, <- app_assoc. reflexivity.
    + assert (E : shellUnescape_loop (shell_escape s) (q ++ [c]) = q ++ c :: s)
        by (rewrite IH, <- app_assoc; reflexivity).
      simpl. destruct (c =? backslash); [|exact E].
      pose proof (shell_escape_no_hash_first s) as Hs.
      destruct (shell_escape s) as [|c1 r]; [exact E|].
      simpl in Hs. rewrite Hs. exact E.
Qed.

(** [NC_shellUnescape] undoes the escaping of the octothorpe: a string in
    which a backslash was put before every ['#'], and nowhere else, comes
    back as it was, whatever backslashes it held before. *)
Theorem shellUnescape_shell_escape (h : allocs) (s : cstring) :
  NC_shellUnescape h (Some (shell_escape s)) =
  if fst (malloc h) then Some s else None.
Proof.
  unfold NC_shellUnescape. now rewrite shellUnescape_loop_shell_escape.
Qed.

Lemma shellUnescape_loop_cons2 (c c1 : char) (p2 : cstring) (q : list char) :
  shellUnescape_loop (c :: c1 :: p2) q =
  if c =? backslash
  then if c1 =? "#" then shellUnescape_loop p2 (q ++ [c1])
       else shellUnescape_loop (c1 :: p2) (q ++ [c])
  else shellUnescape_loop (c1 :: p2) (q ++ [c]).
Proof. reflexivity. Qed.

Lemma shellUnescape_loop_length (n : nat) :
  forall (p : cstring) (q : list char), length p <= n ->
    length (shellUnescape_loop p q) <= length q + length p.
Proof.
  induction n as [n IH] using lt_wf_ind.
  intros [|c [|c1 p2]] q Hn.
  - simpl. lia.
  - simpl. destruct (c =? backslash); rewrite length_app; simpl; lia.
  - rewrite shellUnescape_loop_cons2. cbn [length] in Hn |- *.
    assert (E1 : length (shellUnescape_loop (c1 :: p2) (q ++ [c]))
                 <= length q + S (S (length p2))).
    { pose proof (IH (S (length p2)) ltac:(lia) (c1 :: p2) (q ++ [c])
                    (le_n _)) as H.
      rewrite length_app in H. cbn [length] in H. lia. }
    destruct (c =? backslash); [|exact E1].
    destruct (c1 =? "#"); [|exact E1].
    pose proof (IH (length p2) ltac:(lia) p2 (q ++ [c1]) (le_n _)) as H.
    rewrite length_app in H. cbn [length] in H. lia.
Qed.

(** The result of [NC_shellUnescape] is never longer than its argument, so
    the copy stays inside the [len+1] bytes that were allocated. *)
Theorem shellUnescape_fits (h : allocs) (esc s : cstring) :
  NC_shellUnescape h (Some esc) = Some s -> strlen s <= strlen esc.
Proof.
  unfold NC_shellUnescape. destruct (fst (malloc h)); [|discriminate].
  intro E. injection E as <-.
  exact (shellUnescape_loop_length (length esc) esc [] (le_n _)).
Qed.

Lemma shellUnescape_fits_witness :
  NC_shellUnescape [] (Some (backslash :: lit "#x")) = Some (lit "#x") /\
  strlen (lit "#x") <= strlen (backslash :: lit "#x").
Proof.
  split; [reflexivity|].
  exact (shellUnescape_fits [] (backslash :: lit "#x") (lit "#x") eq_refl).
Defined.

(** ** Backslash unescaper and escaper, further *)

Lemma backslashUnescape_loop_prefix_all (s : cstring) (q : list char) :
  backslashUnescape_loop (prefix_all s) q = Ret (q ++ s).
Proof.
  revert q. induction s as [|c s IH]; intro q; simpl.
  - now rewrite app_nil_r.
  - change (flat_map (fun c0 => [backslash; c0]) s) with (prefix_all s).
    rewrite IH, <- app_assoc. reflexivity.
Qed.

(** [NC_backslashUnescape] inverts the escaping it was written for: when
    every byte of a string, whichever it is, is put behind a backslash of
    its own, the string comes back. *)
Theorem backslashUnescape_prefix_all (h : allocs) (s : cstring) :
  NC_backslashUnescape h (Some (prefix_all s)) =
  if fst (malloc h) then Ret (Some s) else Ret None.
Proof.
  unfold NC_backslashUnescape. destruct (fst (malloc h)); [|reflexivity].
  now rewrite backslashUnescape_loop_prefix_all.
Qed.

Lemma backslashUnescape_loop_plain (s : cstring) (q : list char) :
  existsb (fun c => c =? backslash) s = false ->
  backslashUnescape_loop s q = Ret (q ++ s).
Proof.
  revert q. induction s as [|c s IH]; intros q H; simpl in *.
  - now rewrite app_nil_r.
  - apply orb_false_iff in H as [H1 H2].
    rewrite H1, (IH _ H2), <- app_assoc. reflexivity.
Qed.

(** [NC_backslashUnescape] returns a copy of a string that holds no
    backslash. *)
Theorem backslashUnescape_plain (h : allocs) (s : cstring) :
  existsb (fun c => c =? backslash) s = false ->
  NC_backslashUnescape h (Some s) =
  if fst (malloc h) then Ret (Some s) else Ret None.
Proof.
  intro H. unfold NC_backslashUnescape.
  destruct (fst (malloc h)); [|reflexivity].
  now rewrite (backslashUnescape_loop_plain s [] H).
Qed.

Lemma backslashUnescape_plain_witness :
  existsb (fun c => c =? backslash) (lit "a/b.c") = false /\
  NC_backslashUnescape [] (Some (lit "a/b.c")) = Ret (Some (lit "a/b.c")).
Proof.
  split; [reflexivity|].
  exact (backslashUnescape_plain [] (lit "a/b.c") eq_refl).
Defined.

(** What [NC_backslashEscape] returns is never longer than twice its
    argument, so the copy stays inside the [1+2*len] bytes allocated. *)
Theorem backslashEscape_fits (h : allocs) (s e : cstring) :
  NC_backslashEscape h s = Some e -> strlen e <= 2 * strlen s.
Proof.
  unfold NC_backslashEscape. destruct (fst (malloc h)); [|discriminate].
  intro E. injection E as <-. apply backslashEscape_loop_length.
Qed.

Lemma backslashEscape_fits_witness :
  NC_backslashEscape [] (lit "a.b") = Some [ "a"; backslash; backslash; "b" ] /\
  strlen [ "a"; backslash; backslash; "b" ] <= 2 * strlen (lit "a.b").
Proof.
  split; [reflexivity|].
  exact (backslashEscape_fits [] (lit "a.b") _ eq_refl).
Defined.

Lemma escape_case_slash_dot_at (c : char) :
  escape_case c = false -> slash_dot_at c = false.
Proof.
  unfold escape_case, slash_dot_at.
  destruct (c =? backslash); [discriminate|]. trivial.
Qed.

Lemma escaped_no_slash_dot_at (s : cstring) :
  existsb slash_dot_at (flat_map escape_byte s) = false.
Proof.
  induction s as [|c s IH]; [reflexivity|]. simpl.
  rewrite existsb_app, IH, orb_false_r. unfold escape_byte.
  destruct (escape_case c) eqn:E; [reflexivity|]. simpl.
  now rewrite (escape_case_slash_dot_at c E).
Qed.

(** What [NC_backslashEscape] returns holds none of ['/'], ['.'] and ['@'],
    and does not end in a backslash without a partner: it can be given to
    [NC_backslashUnescape], which then stops at its terminator. *)
Theorem backslashEscape_output (h h' : allocs) (s e : cstring) :
  NC_backslashEscape h s = Some e ->
  existsb slash_dot_at e = false /\
  ends_unpaired e = false /\
  NC_backslashUnescape h' (Some e) <> ReadPastEnd.
Proof.
  unfold NC_backslashEscape. destruct (fst (malloc h)); [|discriminate].
  intro E. injection E as <-.
  rewrite backslashEscape_loop_flat_map. simpl app.
  split; [apply escaped_no_slash_dot_at|].
  pose proof (backslashUnescape_loop_escaped s []) as Hr.
  assert (Hu : ends_unpaired (flat_map escape_byte s) = false).
  { destruct (ends_unpaired (flat_map escape_byte s)) eqn:Eu; [|reflexivity].
    destruct (backslashUnescape_loop_end
                (length (flat_map escape_byte s)) (flat_map escape_byte s) []
                (le_n _)) as [I _].
    rewrite (I Eu) in Hr. discriminate. }
  split; [exact Hu|].
  unfold NC_backslashUnescape. destruct (fst (malloc h')); [|discriminate].
  rewrite Hr. discriminate.
Qed.

Lemma backslashEscape_output_witness :
  NC_backslashEscape [] (lit "a@b") = Some [ "a"; backslash; backslash; "b" ] /\
  existsb slash_dot_at [ "a"; backslash; backslash; "b" ] = false /\
  ends_unpaired [ "a"; backslash; backslash; "b" ] = false.
Proof.
  split; [reflexivity|].
  destruct (backslashEscape_output [] [] (lit "a@b") _ eq_refl) as (H1 & H2 & _).
  split; [exact H1 | exact H2].
Defined.

Lemma escape_byte_collapse (c : char) :
  escape_byte (collapse c) = escape_byte c.
Proof.
  unfold collapse, escape_byte. destruct (escape_case c) eqn:E.
  - reflexivity.
  - now rewrite E.
Qed.

(** [NC_backslashEscape] does not tell ['\'], ['/'], ['.'] and ['@'] apart:
    a string and the string with each of them replaced by a backslash give
    the same result, so the argument cannot be recovered from it. *)
Theorem backslashEscape_collapse (h : allocs) (s : cstring) :
  NC_backslashEscape h s = NC_backslashEscape h (map collapse s).
Proof.
  unfold NC_backslashEscape. destruct (fst (malloc h)); [|reflexivity].
  rewrite !backslashEscape_loop_flat_map. do 2 f_equal.
  induction s as [|c s IH]; [reflexivity|]. simpl.
  now rewrite escape_byte_collapse, IH.
Qed.

(** ** Entity escaper, further *)

(** What the entity escaper writes for one byte. *)
Lemma entity_image (c : char) :
  match table_find c entity_table with
  | Some e => e
  | None => [c]
  end =
  if c =? "&" then lit "&amp;"
  else if c =? "<" then lit "&lt;"
  else if c =? ">" then lit "&gt;"
  else if c =? dquote then lit "&quot;"
  else if c =? "'" then lit "&apos;"
  else [c].
Proof.
  unfold entity_table, table_find. rewrite !(Ascii.eqb_sym _ c).
  destruct (c =? "&"); [reflexivity|].
  destruct (c =? "<"); [reflexivity|].
  destruct (c =? ">"); [reflexivity|].
  destruct (c =? dquote); [reflexivity|].
  destruct (c =? "'"); reflexivity.
Qed.

Lemma spec_entityEscape_cons (c : char) (s : cstring) :
  spec_entityEscape (c :: s) =
  (if c =? "&" then lit "&amp;"
   else if c =? "<" then lit "&lt;"
   else if c =? ">" then lit "&gt;"
   else if c =? dquote then lit "&quot;"
   else if c =? "'" then lit "&apos;"
   else [c]) ++ spec_entityEscape s.
Proof.
  unfold spec_entityEscape. cbn [flat_map]. now rewrite entity_image.
Qed.

Lemma spec_entityEscape_no_special (s : cstring) :
  existsb xml_special (spec_entityEscape s) = false.
Proof.
  induction s as [|c s IH]; [reflexivity|].
  rewrite spec_entityEscape_cons, existsb_app, IH, orb_false_r.
  unfold xml_special.
  destruct (c =? "&") eqn:E1; [reflexivity|].
  destruct (c =? "<") eqn:E2; [reflexivity|].
  destruct (c =? ">") eqn:E3; [reflexivity|].
  destruct (c =? dquote) eqn:E4; [reflexivity|].
  destruct (c =? "'") eqn:E5; [reflexivity|].
  simpl. now rewrite E2, E3, E4, E5.
Qed.

(** What [NC_entityescape] returns holds none of [<], [>], the double quote
    and the apostrophe. *)
Theorem entityescape_no_special (h : allocs) (s e : cstring) :
  NC_entityescape h s = Some e -> existsb xml_special e = false.
Proof.
  unfold NC_entityescape. destruct (fst (malloc h)); [|discriminate].
  intro E. injection E as <-. rewrite entityescape_loop_spec.
  apply spec_entityEscape_no_special.
Qed.

Lemma entityescape_no_special_witness :
  NC_entityescape [] (lit "<a&b>") = Some (lit "&lt;a&amp;b&gt;") /\
  existsb xml_special (lit "&lt;a&amp;b&gt;") = false.
Proof.
  split; [reflexivity|].
  exact (entityescape_no_special [] (lit "<a&b>") _ eq_refl).
Defined.

Lemma spec_entityEscape_inj (s1 : cstring) :
  forall s2, spec_entityEscape s1 = spec_entityEscape s2 -> s1 = s2.
Proof.
  induction s1 as [|c1 s1 IH]; intros [|c2 s2].
  - reflexivity.
  - rewrite spec_entityEscape_cons. intro H. exfalso. revert H.
    destruct (c2 =? "&"); [discriminate|].
    destruct (c2 =? "<"); [discriminate|].
    destruct (c2 =? ">"); [discriminate|].
    destruct (c2 =? dquote); [discriminate|].
    destruct (c2 =? "'"); discriminate.
  - rewrite spec_entityEscape_cons. intro H. exfalso. revert H.
    destruct (c1 =? "&"); [discriminate|].
    destruct (c1 =? "<"); [discriminate|].
    destruct (c1 =? ">"); [discriminate|].
    destruct (c1 =? dquote); [discriminate|].
    destruct (c1 =? "'"); discriminate.
  - rewrite !spec_entityEscape_cons. intro H.
    assert (E : c1 = c2 /\ spec_entityEscape s1 = spec_entityEscape s2).
    { revert H.
      destruct (Ascii.eqb_spec c1 "&") as [->|A1];
      [|destruct (Ascii.eqb_spec c1 "<") as [->|A2];
       [|destruct (Ascii.eqb_spec c1 ">") as [->|A3];
        [|destruct (Ascii.eqb_spec c1 dquote) as [->|A4];
         [|destruct (Ascii.eqb_spec c1 "'") as [->|A5]]]]];
      (destruct (Ascii.eqb_spec c2 "&") as [->|B1];
       [|destruct (Ascii.eqb_spec c2 "<") as [->|B2];
        [|destruct (Ascii.eqb_spec c2 ">") as [->|B3];
         [|destruct (Ascii.eqb_spec c2 dquote) as [->|B4];
          [|destruct (Ascii.eqb_spec c2 "'") as [->|B5]]]]]);
      cbn [lit list_ascii_of_string app]; intro H;
      first [ discriminate H
            | injection H as H; split; [reflexivity | exact H]
            | injection H as H0 H;
              first [ exfalso; congruence | split; [exact H0 | exact H] ] ]. }
    destruct E as [-> E]. f_equal. exact (IH s2 E).
Qed.

(** [NC_entityescape] loses nothing: two strings with the same result are
    the same string. *)
Theorem entityescape_injective (h : allocs) (s1 s2 e : cstring) :
  NC_entityescape h s1 = Some e ->
  NC_entityescape h s2 = Some e ->
  s1 = s2.
Proof.
  unfold NC_entityescape. destruct (fst (malloc h)); [|discriminate].
  rewrite !entityescape_loop_spec. simpl app. intros E1 E2.
  apply spec_entityEscape_inj. congruence.
Qed.

Lemma entityescape_injective_witness :
  NC_entityescape [] (lit "a&b") = Some (lit "a&amp;b") /\
  lit "a&b" = lit "a&b".
Proof.
  split; [reflexivity|].
  exact (entityescape_injective [] (lit "a&b") (lit "a&b") _ eq_refl eq_refl).
Defined.



(** ** Delimiter splitter, further *)

Lemma split_loop_proper (d : char) (n : nat) :
  forall (p : cstring), length p <= n ->
  forall (h : allocs) (segments : NClist),
  exists new, snd (split_loop h p d segments) = segments ++ new /\
              forallb (proper_run d) new = true.
Proof.
  induction n as [|n IH]; intros [|c p'] Hn h segments;
    try (rewrite split_loop_nil; exists []; simpl; rewrite app_nil_r; now split).
  - simpl in Hn. lia.
  - rewrite split_loop_cons.
    destruct (run_decompose d (c :: p')) as (run & q & Ep & Hr & Hq).
    rewrite Ep, (split_body_at h d run q segments Hr Hq).
    destruct (length run =? 0)%nat eqn:Hl.
    { exists []. simpl. rewrite app_nil_r. now split. }
    destruct (malloc h) as [[|] h'].
    2:{ exists []. simpl. rewrite app_nil_r. now split. }
    assert (Hq1 : length (tl q) <= n).
    { apply Nat.eqb_neq in Hl.
      apply (f_equal (@length _)) in Ep. rewrite length_app in Ep.
      simpl in Ep, Hn. destruct q; simpl in *; lia. }
    destruct (IH (tl q) Hq1 h' (segments ++ [run])) as (new & Hs & Hf).
    exists (run :: new). rewrite Hs, <- app_assoc. split; [reflexivity|].
    simpl. rewrite Hf, andb_true_r. unfold proper_run, strlen.
    now rewrite Hl, Hr.
Qed.

(** Every segment that [NC_split_delim] adds to the caller's list, whether
    the call succeeds or fails, is a run of the argument that is not empty
    and holds no delimiter. *)
Theorem split_segments_proper (h : allocs) (arg : cstring) (d : char)
  (segments : NClist) :
  exists new,
    snd (NC_split_delim h (Some arg) d (Some segments)) =
      Some (segments ++ new) /\
    forallb (proper_run d) new = true.
Proof.
  rewrite NC_split_delim_loop. simpl snd.
  set (p := if starts_with d arg then tl arg else arg).
  destruct (split_loop_proper d (length p) p (le_n _) h segments)
    as (new & Hs & Hf).
  exists new. now rewrite Hs.
Qed.

(** A string that does not start with the delimiter and has no two
    delimiters in a row is split without error into proper runs; these,
    with the delimiter between them and possibly one delimiter after them,
    make up the string. *)
Lemma split_loop_accepts (d : char) (n : nat) :
  forall (p : cstring), length p <= n ->
  forall (h : allocs) (old : NClist),
  starts_with d p = false ->
  has_adjacent d p = false ->
  plentiful h = true ->
  exists new trail,
    split_loop h p d old = (NC_NOERR, old ++ new) /\
    forallb (proper_run d) new = true /\
    (trail = [] \/ trail = [d]) /\
    p = interleave d new ++ trail.
Proof.
  induction n as [|n IH]; intros [|c p'] Hn h old Hs Ha Hh;
    try (exists [], []; rewrite split_loop_nil, app_nil_r;
         repeat split; now left).
  - simpl in Hn. lia.
  - rewrite split_loop_cons.
    destruct (run_decompose d (c :: p')) as (run & q & Ep & Hr & Hq).
    rewrite Ep in Hs, Ha |- *.
    rewrite (split_body_at h d run q old Hr Hq).
    destruct run as [|a run].
    { simpl in *. destruct Hq as [->|Hq]; [discriminate Ep | congruence]. }
    cbn [length Nat.eqb].
    destruct (malloc h) as [ok h'] eqn:Hm.
    apply malloc_plentiful in Hm. rewrite Hh in Hm.
    symmetry in Hm. apply andb_true_iff in Hm as [-> Hh'].
    assert (Hrun : proper_run d (a :: run) = true)
      by (unfold proper_run; now rewrite Hr).
    destruct q as [|x q1].
    + exists [a :: run], []. simpl tl.
      rewrite split_loop_nil. cbn [forallb]. rewrite Hrun.
      repeat split. now left.
    + destruct Hq as [Hq|Hq]; [discriminate Hq|]. simpl in Hq.
      apply Ascii.eqb_eq in Hq. subst x.
      rewrite has_adjacent_run in Ha by exact Hr.
      simpl in Ha. rewrite Ascii.eqb_refl in Ha. simpl in Ha.
      apply orb_false_iff in Ha as [Ha1 Ha2].
      assert (Hl : length q1 <= n).
      { apply (f_equal (@length _)) in Ep. simpl in Ep, Hn.
        rewrite length_app in Ep. simpl in Ep. lia. }
      simpl tl.
      destruct (IH q1 Hl h' (old ++ [a :: run]) Ha1 Ha2 Hh')
        as (new & trail & Hsplit & Hnew & Ht & Hi).
      rewrite Hsplit, <- app_assoc.
      destruct new as [|s0 new].
      * simpl in Hi. subst q1.
        assert (trail = []).
        { destruct Ht as [->| ->]; [reflexivity|].
          simpl in Ha1. rewrite Ascii.eqb_refl in Ha1. discriminate. }
        subst trail. exists [a :: run], [d].
        cbn [forallb]. rewrite Hrun. repeat split. now right.
      * exists ((a :: run) :: s0 :: new), trail.
        change (forallb (proper_run d) ((a :: run) :: s0 :: new))
          with (proper_run d (a :: run) && forallb (proper_run d) (s0 :: new)).
        rewrite Hrun, Hnew. repeat split; [exact Ht|].
        change (interleave d ((a :: run) :: s0 :: new))
          with ((a :: run) ++ d :: interleave d (s0 :: new)).
        rewrite <- app_assoc. simpl. now rewrite Hi.
Qed.

Lemma has_adjacent_tail (d c : char) (s : cstring) :
  has_adjacent d (c :: s) = false ->
  has_adjacent d s = false /\ (c = d -> starts_with d s = false).
Proof.
  simpl. intro H. apply orb_false_iff in H as [H1 H2].
  split; [exact H2|]. intros ->. now rewrite Ascii.eqb_refl in H1.
Qed.

(** When no allocation fails, [NC_split_delim] returns [NC_NOERR] exactly
    for the strings that have no two delimiters in a row. *)
Theorem split_succeeds_iff (h : allocs) (arg : cstring) (d : char)
  (segments : NClist) :
  plentiful h = true ->
  (fst (NC_split_delim h (Some arg) d (Some segments)) = NC_NOERR <->
   has_adjacent d arg = false).
Proof.
  intro Hh. split.
  - intro E. destruct (has_adjacent d arg) eqn:Ha; [|reflexivity].
    destruct (NC_split_delim_empty_run h arg d segments Ha) as [E1|[E1 _]];
      congruence.
  - intro Ha. rewrite NC_split_delim_loop. simpl fst.
    destruct arg as [|c p1]; [now rewrite split_loop_nil|].
    destruct (has_adjacent_tail d c p1 Ha) as [Ha1 Ha2].
    simpl starts_with. destruct (Ascii.eqb_spec c d) as [->|Hc].
    + simpl tl.
      destruct (split_loop_accepts d (length p1) p1 (le_n _) h segments
                  (Ha2 eq_refl) Ha1 Hh) as (new & trail & Hs & _).
      now rewrite Hs.
    + assert (Hs0 : starts_with d (c :: p1) = false)
        by (simpl; now apply Ascii.eqb_neq).
      destruct (split_loop_accepts d (length (c :: p1)) (c :: p1) (le_n _) h
                  segments Hs0 Ha Hh) as (new & trail & Hs & _).
      now rewrite Hs.
Qed.

Lemma split_succeeds_iff_witness :
  plentiful [] = true /\
  has_adjacent "," (lit ",dap4,bytes,") = false /\
  fst (NC_split_delim [] (Some (lit ",dap4,bytes,")) "," (Some [])) = NC_NOERR.
Proof.
  split; [reflexivity|]. split; [reflexivity|].
  exact (proj2 (split_succeeds_iff [] (lit ",dap4,bytes,") "," [] eq_refl)
           eq_refl).
Defined.

(** When no allocation fails, a string with no two delimiters in a row is
    split into proper runs which, with one delimiter between neighbours,
    make up the string less one delimiter at its start and one at its end,
    if it has them. *)
Theorem split_reconstruct (h : allocs) (arg : cstring) (d : char)
  (segments : NClist) :
  plentiful h = true ->
  has_adjacent d arg = false ->
  exists segs lead trail,
    NC_split_delim h (Some arg) d (Some segments) =
      (NC_NOERR, Some (segments ++ segs)) /\
    forallb (proper_run d) segs = true /\
    (lead = [] \/ lead = [d]) /\
    (trail = [] \/ trail = [d]) /\
    arg = lead ++ interleave d segs ++ trail.
Proof.
  intros Hh Ha. rewrite NC_split_delim_loop.
  destruct arg as [|c p1].
  { exists [], [], []. rewrite split_loop_nil, app_nil_r.
    repeat split; now left. }
  destruct (has_adjacent_tail d c p1 Ha) as [Ha1 Ha2].
  simpl starts_with. destruct (Ascii.eqb_spec c d) as [->|Hc].
  - simpl tl.
    destruct (split_loop_accepts d (length p1) p1 (le_n _) h segments
                (Ha2 eq_refl) Ha1 Hh) as (new & trail & Hs & Hp & Ht & Hi).
    exists new, [d], trail. rewrite Hs. simpl fst. simpl snd.
    repeat split; [exact Hp | now right | exact Ht |].
    simpl. now rewrite <- Hi.
  - assert (Hs0 : starts_with d (c :: p1) = false)
      by (simpl; now apply Ascii.eqb_neq).
    destruct (split_loop_accepts d (length (c :: p1)) (c :: p1) (le_n _) h
                segments Hs0 Ha Hh) as (new & trail & Hs & Hp & Ht & Hi).
    exists new, [], trail. rewrite Hs. simpl fst. simpl snd.
    repeat split; [exact Hp | now left | exact Ht | exact Hi].
Qed.

Lemma split_reconstruct_witness :
  plentiful [] = true /\
  has_adjacent "/" (lit "/a/bc/") = false /\
  exists segs lead trail,
    NC_split_delim [] (Some (lit "/a/bc/")) "/" (Some []) =
      (NC_NOERR, Some ([] ++ segs)) /\
    forallb (proper_run "/") segs = true /\
    (lead = [] \/ lead = ["/"]) /\
    (trail = [] \/ trail = ["/"]) /\
    lit "/a/bc/" = lead ++ interleave "/" segs ++ trail.
Proof.
  split; [reflexivity|]. split; [reflexivity|].
  exact (split_reconstruct [] (lit "/a/bc/") "/" [] eq_refl eq_refl).
Defined.

(** ** Joiner and splitter together *)

Lemma proper_run_no_start (d : char) (seg : cstring) :
  proper_run d seg = true -> starts_with d seg = false.
Proof.
  intro H. destruct (proper_run_inv d seg H) as [_ Hf].
  destruct seg as [|c seg]; [reflexivity|].
  simpl in *. now apply orb_false_iff in Hf as [Hc _].
Qed.

Lemma join_proper_runs (segs : NClist) :
  segs <> [] ->
  forallb (proper_run "/") segs = true ->
  flat_map (fun seg => if starts_with "/" seg then seg else "/" :: seg) segs =
  "/" :: interleave "/" segs.
Proof.
  induction segs as [|seg rest IH]; [congruence|]. intros _ H.
  simpl in H. apply andb_true_iff in H as [Hseg Hrest].
  cbn [flat_map]. rewrite (proper_run_no_start "/" seg Hseg).
  destruct rest as [|r rest'].
  - simpl. now rewrite app_nil_r.
  - rewrite (IH ltac:(discriminate) Hrest). reflexivity.
Qed.

(** Splitting at ['/'] what [NC_join] made of proper runs gives the runs
    back. *)
Theorem split_join_roundtrip (h1 h2 : allocs) (segs : NClist)
  (old : ptr cstring) :
  fst (malloc h1) = true ->
  plentiful h2 = true ->
  forallb (proper_run "/") segs = true ->
  exists path,
    NC_join h1 (Some segs) (Some old) = (NC_NOERR, Some (Some path)) /\
    NC_split_delim h2 (Some path) "/" (Some []) = (NC_NOERR, Some segs).
Proof.
  intros H1 H2 Hp. unfold NC_join. rewrite H1.
  destruct segs as [|seg rest].
  - exists (lit "/"). split; [reflexivity|].
    rewrite NC_split_delim_loop. simpl. now rewrite split_loop_nil.
  - cbn [nclistlength length Nat.eqb].
    rewrite join_loop_flat_map.
    rewrite (join_proper_runs (seg :: rest) ltac:(discriminate) Hp).
    eexists. split; [reflexivity|].
    rewrite NC_split_delim_loop. unfold ncbytesnew.
    cbn [app starts_with tl]. rewrite Ascii.eqb_refl.
    pose proof (split_loop_interleave "/" (seg :: rest) ltac:(discriminate)
                  Hp h2 [] [] H2 (or_introl eq_refl)) as E.
    rewrite app_nil_r in E. rewrite E. reflexivity.
Qed.

Lemma split_join_roundtrip_witness :
  fst (malloc []) = true /\
  plentiful [] = true /\
  forallb (proper_run "/") [lit "a"; lit "b.c"] = true /\
  exists path,
    NC_join [] (Some [lit "a"; lit "b.c"]) (Some None) =
      (NC_NOERR, Some (Some path)) /\
    NC_split_delim [] (Some path) "/" (Some []) =
      (NC_NOERR, Some [lit "a"; lit "b.c"]).
Proof.
  repeat (split; [reflexivity|]).
  exact (split_join_roundtrip [] [] [lit "a"; lit "b.c"] None eq_refl eq_refl
           eq_refl).
Defined.

Lemma ends_with_snoc (d : char) (s : cstring) : ends_with d (s ++ [d]) = true.
Proof.
  unfold ends_with. rewrite rev_app_distr. simpl. apply Ascii.eqb_refl.
Qed.

(** A path that starts with ['/'], does not end with one and has no two in
    a row is what [NC_join] makes of its segments: splitting and joining
    gives it back. *)
Theorem join_split_roundtrip (h1 h2 : allocs) (path : cstring)
  (old : ptr cstring) :
  plentiful h1 = true ->
  fst (malloc h2) = true ->
  starts_with "/" path = true ->
  ends_with "/" path = false ->
  has_adjacent "/" path = false ->
  exists segs,
    NC_split_delim h1 (Some path) "/" (Some []) = (NC_NOERR, Some segs) /\
    NC_join h2 (Some segs) (Some old) = (NC_NOERR, Some (Some path)).
Proof.
  intros H1 H2 Hs He Ha. rewrite NC_split_delim_loop, Hs.
  destruct path as [|c p1]; [discriminate Hs|].
  simpl in Hs. apply Ascii.eqb_eq in Hs. subst c.
  destruct (has_adjacent_tail "/" "/" p1 Ha) as [Ha1 Ha2].
  simpl tl.
  destruct (split_loop_accepts "/" (length p1) p1 (le_n _) h1 []
              (Ha2 eq_refl) Ha1 H1) as (new & trail & Hsp & Hp & Ht & Hi).
  rewrite Hsp. simpl. exists new. split; [reflexivity|].
  assert (trail = []).
  { destruct Ht as [->| ->]; [reflexivity|]. exfalso.
    rewrite Hi in He.
    change ("/" :: interleave "/" new ++ ["/"])
      with (("/" :: interleave "/" new) ++ ["/"]) in He.
    rewrite ends_with_snoc in He. discriminate. }
  subst trail. rewrite app_nil_r in Hi.
  destruct new as [|s0 new].
  { simpl in Hi. subst p1. discriminate He. }
  unfold NC_join. rewrite H2. cbn [nclistlength length Nat.eqb].
  rewrite join_loop_flat_map.
  rewrite (join_proper_runs (s0 :: new) ltac:(discriminate) Hp).
  now rewrite <- Hi.
Qed.

Lemma join_split_roundtrip_witness :
  plentiful [] = true /\
  fst (malloc []) = true /\
  starts_with "/" (lit "/a/b.c") = true /\
  ends_with "/" (lit "/a/b.c") = false /\
  has_adjacent "/" (lit "/a/b.c") = false /\
  exists segs,
    NC_split_delim [] (Some (lit "/a/b.c")) "/" (Some []) =
      (NC_NOERR, Some segs) /\
    NC_join [] (Some segs) (Some None) = (NC_NOERR, Some (Some (lit "/a/b.c"))).
Proof.
  repeat (split; [reflexivity|]).
  exact (join_split_roundtrip [] [] (lit "/a/b.c") None eq_refl eq_refl
           eq_refl eq_refl eq_refl).
Defined.

(** The path that [NC_join] returns always starts with ['/']. *)
Theorem join_starts_with_slash (h : allocs) (segs : NClist)
  (old : ptr cstring) :
  fst (malloc h) = true ->
  exists rest,
    NC_join h (Some segs) (Some old) = (NC_NOERR, Some (Some ("/" :: rest))).
Proof.
  intro H. unfold NC_join. rewrite H.
  destruct segs as [|seg segs]; [now exists []|].
  cbn [nclistlength length Nat.eqb].
  rewrite join_loop_flat_map. cbn [flat_map ncbytesnew app].
  destruct seg as [|c seg]; [eexists; reflexivity|].
  simpl starts_with. destruct (Ascii.eqb_spec c "/") as [->|Hc];
    eexists; reflexivity.
Qed.

Lemma join_starts_with_slash_witness :
  fst (malloc []) = true /\
  exists rest,
    NC_join [] (Some [lit "/a"; lit ""; lit "b"]) (Some None) =
      (NC_NOERR, Some (Some ("/" :: rest))).
Proof.
  split; [reflexivity|].
  exact (join_starts_with_slash [] [lit "/a"; lit ""; lit "b"] None eq_refl).
Defined.

(** ** Mode list and mode tags, further *)

(** A mode list that [NC_getmodelist] stores for its caller holds no empty
    mode and no mode with a comma in it, and it is the empty list when the
    mode string is NULL or empty. *)
Theorem getmodelist_modes_proper (h : allocs) (modestr : ptr cstring)
  (old : ptr NClist) (modes : NClist) :
  NC_getmodelist h modestr (Some old) = (NC_NOERR, Some (Some modes)) ->
  forallb (proper_run ",") modes = true /\
  (modestr = None \/ modestr = Some [] -> modes = []).
Proof.
  destruct modestr as [s|].
  - rewrite NC_getmodelist_split.
    rewrite NC_split_delim_loop.
    set (p := if starts_with "," s then tl s else s).
    destruct (split_loop_proper "," (length p) p (le_n _) h [])
      as (new & Hs & Hp).
    simpl in Hs. rewrite Hs.
    destruct (fst (split_loop h p "," [])) as [| | | |] eqn:Est;
      cbv iota beta.
    all: intro E; try discriminate E.
    injection E as <-. split; [exact Hp|].
    intros [E|E]; [discriminate E|]. injection E as ->.
    unfold p in Hs. simpl in Hs. rewrite split_loop_nil in Hs.
    simpl in Hs. now subst new.
  - unfold NC_getmodelist, nclistnew. intro E. injection E as <-.
    now split.
Qed.

Lemma getmodelist_modes_proper_witness :
  NC_getmodelist [] (Some (lit "dap4,bytes,")) (Some None) =
    (NC_NOERR, Some (Some [lit "dap4"; lit "bytes"])) /\
  forallb (proper_run ",") [lit "dap4"; lit "bytes"] = true.
Proof.
  split; [reflexivity|].
  exact (proj1 (getmodelist_modes_proper [] (Some (lit "dap4,bytes,")) None
                  [lit "dap4"; lit "bytes"] eq_refl)).
Defined.

Lemma tolower_idem (c : char) : tolower (tolower c) = tolower c.
Proof.
  unfold tolower. cbv zeta.
  destruct ((65 <=? nat_of_ascii c)%nat && (nat_of_ascii c <=? 90)%nat) eqn:E.
  - apply andb_true_iff in E as [E1 E2]. apply Nat.leb_le in E1, E2.
    rewrite nat_ascii_embedding by lia.
    destruct (nat_of_ascii c + 32 <=? 90)%nat eqn:E3.
    + apply Nat.leb_le in E3. lia.
    + now rewrite andb_false_r.
  - now rewrite E.
Qed.

Lemma strcasecmp_tolower (a b : cstring) :
  strcasecmp a (map tolower b) = strcasecmp a b.
Proof.
  revert b. induction a as [|c1 a IH]; intros [|c2 b]; simpl;
    rewrite ?tolower_idem; try reflexivity.
  now rewrite IH.
Qed.

Lemma search_tag_caseless (modelist : NClist) (tag1 tag2 : cstring) :
  caseless_eq tag1 tag2 ->
  search_tag modelist tag1 = search_tag modelist tag2.
Proof.
  unfold caseless_eq. intro E.
  induction modelist as [|mode rest IH]; [reflexivity|]. simpl.
  rewrite <- (strcasecmp_tolower mode tag1), <- (strcasecmp_tolower mode tag2),
    E, IH.
  reflexivity.
Qed.

(** [NC_testmode] does not look at the case of the letters of the tag: two
    tags that differ only in case get the same answer. *)
Theorem testmode_tag_caseless (NCURI : Type)
  (ncurifragmentlookup : NCURI -> cstring -> ptr cstring)
  (h : allocs) (uri : NCURI) (tag1 tag2 : cstring) :
  caseless_eq tag1 tag2 ->
  NC_testmode NCURI ncurifragmentlookup h uri tag1 =
  NC_testmode NCURI ncurifragmentlookup h uri tag2.
Proof.
  intro E. unfold NC_testmode.
  destruct (ncurifragmentlookup uri (lit "mode")) as [v|]; [|reflexivity].
  destruct (NC_getmodelist h (Some v) (Some None)) as [[] [[l|]|]];
    try reflexivity.
  now apply search_tag_caseless.
Qed.

Lemma testmode_tag_caseless_witness :
  caseless_eq (lit "DAP4") (lit "dap4") /\
  NC_testmode _ fraglookup [] [(lit "mode", lit "Dap4,bytes")] (lit "DAP4") =
  NC_testmode _ fraglookup [] [(lit "mode", lit "Dap4,bytes")] (lit "dap4").
Proof.
  split; [reflexivity|].
  exact (testmode_tag_caseless _ fraglookup [] [(lit "mode", lit "Dap4,bytes")]
           (lit "DAP4") (lit "dap4") eq_refl).
Defined.

Lemma NC_testmode_cases (NCURI : Type)
  (ncurifragmentlookup : NCURI -> cstring -> ptr cstring)
  (h : allocs) (uri : NCURI) (tag : cstring) :
  NC_testmode NCURI ncurifragmentlookup h uri tag =
  match ncurifragmentlookup uri (lit "mode") with
  | None => 0%Z
  | Some v =>
      match NC_split_delim h (Some v) "," (Some []) with
      | (NC_NOERR, Some modes) => search_tag modes tag
      | _ => 0%Z
      end
  end.
Proof.
  unfold NC_testmode.
  destruct (ncurifragmentlookup uri (lit "mode")) as [v|]; [|reflexivity].
  rewrite NC_getmodelist_split.
  destruct (NC_split_delim h (Some v) "," (Some [])) as [[] [l|]];
    reflexivity.
Qed.

(** [NC_testpathmode] returns 1 exactly when the parser left a URI, the
    fragment of that URI has a value under "mode" that is split at the
    commas without error, and [strcasecmp] finds one of the segments equal
    to the tag; whatever status the parser returned.  Otherwise it returns
    0. *)
Theorem testpathmode_found (NCURI : Type)
  (ncuriparse : ptr cstring -> ncerr * ptr NCURI)
  (ncurifragmentlookup : NCURI -> cstring -> ptr cstring)
  (h : allocs) (path : ptr cstring) (tag : cstring) :
  (NC_testpathmode NCURI ncuriparse ncurifragmentlookup h path tag = 1%Z <->
   exists uri v modes,
     snd (ncuriparse path) = Some uri /\
     ncurifragmentlookup uri (lit "mode") = Some v /\
     NC_split_delim h (Some v) "," (Some []) = (NC_NOERR, Some modes) /\
     Exists (fun mode => strcasecmp mode tag = 0%Z) modes) /\
  (NC_testpathmode NCURI ncuriparse ncurifragmentlookup h path tag = 1%Z \/
   NC_testpathmode NCURI ncuriparse ncurifragmentlookup h path tag = 0%Z).
Proof.
  unfold NC_testpathmode.
  destruct (snd (ncuriparse path)) as [uri|].
  2:{ split; [|now right]. split; [discriminate|].
      intros (uri & v & modes & E & _). discriminate E. }
  rewrite NC_testmode_cases.
  destruct (ncurifragmentlookup uri (lit "mode")) as [v|] eqn:Hv.
  2:{ split; [|now right]. split; [discriminate|].
      intros (uri' & v & modes & E & Hv' & _).
      assert (uri' = uri) by congruence. subst uri'. congruence. }
  destruct (NC_split_delim h (Some v) "," (Some [])) as [stat l] eqn:Hs.
  assert (Hno : (exists uri' v' modes,
                    Some uri = Some uri' /\
                    ncurifragmentlookup uri' (lit "mode") = Some v' /\
                    NC_split_delim h (Some v') "," (Some []) =
                      (NC_NOERR, Some modes) /\
                    Exists (fun mode => strcasecmp mode tag = 0%Z) modes) ->
                exists modes, stat = NC_NOERR /\ l = Some modes /\
                  Exists (fun mode => strcasecmp mode tag = 0%Z) modes).
  { intros (uri' & v' & modes & E & Hv' & Hs' & Hex).
    assert (uri' = uri) by congruence. subst uri'.
    assert (v' = v) by congruence. subst v'.
    exists modes. repeat split; [congruence | congruence | exact Hex]. }
  destruct stat; destruct l as [modes|];
    try (split; [|now right]; split; [discriminate|];
         intro H; destruct (Hno H) as (m & E1 & E2 & _); congruence).
  destruct (search_tag_found modes tag) as [S1 S2].
  split; [|exact S2]. rewrite S1. split.
  - intro Hex. exists uri, v, modes. now repeat split.
  - intro H. destruct (Hno H) as (m & _ & E2 & Hex). congruence.
Qed.

(** ** Base name of a URL *)

Lemma strrchr_none (c : char) (s : cstring) :
  (c =? NUL) = false ->
  existsb (fun x => x =? c) s = false ->
  strrchr s c = None.
Proof.
  intros Hc. induction s as [|x s IH]; simpl; intro H.
  - now rewrite Hc.
  - apply orb_false_iff in H as [H1 H2]. now rewrite (IH H2), H1.
Qed.

Lemma strrchr_last (c : char) (before after : cstring) :
  (c =? NUL) = false ->
  existsb (fun x => x =? c) after = false ->
  strrchr (before ++ c :: after) c = Some (c :: after).
Proof.
  intros Hc Ha. induction before as [|x before IH]; simpl.
  - now rewrite (strrchr_none c after Hc Ha), Ascii.eqb_refl.
  - now rewrite IH.
Qed.

Lemma cut_extension_ext (base ext : cstring) :
  0 < strlen base ->
  existsb (fun x => x =? ".") ext = false ->
  cut_extension (Some (base ++ "." :: ext)) = Some base.
Proof.
  intros Hb He. unfold cut_extension.
  rewrite (strrchr_last "." base ext eq_refl He).
  rewrite length_app. cbn [length]. unfold strlen in Hb.
  destruct (Nat.eqb_spec (S (length ext)) (length base + S (length ext)));
    [lia|].
  rewrite Nat.add_sub, firstn_app, firstn_all, Nat.sub_diag, firstn_O.
  now rewrite app_nil_r.
Qed.

Lemma cut_extension_none (comp : cstring) :
  existsb (fun x => x =? ".") (tl comp) = false ->
  cut_extension (Some comp) = Some comp.
Proof.
  intro H. unfold cut_extension. destruct comp as [|c comp]; [reflexivity|].
  simpl in H. simpl strrchr. rewrite (strrchr_none "." comp eq_refl H).
  destruct (c =? "."); [|reflexivity].
  now rewrite Nat.eqb_refl.
Qed.

Section Basename.

Variable NCURI : Type.
Variable ncuriparse : ptr cstring -> ncerr * ptr NCURI.
Variable ncuriparse_stores : ptr cstring -> bool.
Variable uri_path : NCURI -> ptr cstring.

(** For a URL that parses and whose path ends in a component
    [base.ext], where [ext] is the part after the last ['.'] and [base] is
    not empty, [NC__testurl] hands [base] to its caller: the directories
    and the extension are gone. *)
Theorem testurl_basename (h : allocs) (path : ptr cstring)
  (old : ptr cstring) (uri : NCURI) (dir base ext : cstring) :
  ncuriparse_stores path = true ->
  ncuriparse path = (NC_NOERR, Some uri) ->
  uri_path uri = Some (dir ++ "/" :: base ++ "." :: ext) ->
  existsb (fun x => x =? "/") (base ++ "." :: ext) = false ->
  existsb (fun x => x =? ".") ext = false ->
  0 < strlen base ->
  fst (malloc h) = true ->
  NC__testurl NCURI ncuriparse ncuriparse_stores uri_path h path (Some old) =
  Returns (NC_NOERR, Some (Some base)).
Proof.
  intros Hst Hp Hu Hs He Hb Hm. unfold NC__testurl.
  rewrite Hst. cbn [negb]. rewrite Hp, Hu.
  rewrite (strrchr_last "/" dir (base ++ "." :: ext) eq_refl Hs).
  cbn [tl]. unfold nulldup. rewrite Hm.
  now rewrite (cut_extension_ext base ext Hb He).
Qed.

(** When the last component of the path has no ['.'], or only the one it
    starts with, [NC__testurl] hands the whole component to its caller. *)
Theorem testurl_no_extension (h : allocs) (path : ptr cstring)
  (old : ptr cstring) (uri : NCURI) (dir comp : cstring) :
  ncuriparse_stores path = true ->
  ncuriparse path = (NC_NOERR, Some uri) ->
  uri_path uri = Some (dir ++ "/" :: comp) ->
  existsb (fun x => x =? "/") comp = false ->
  existsb (fun x => x =? ".") (tl comp) = false ->
  fst (malloc h) = true ->
  NC__testurl NCURI ncuriparse ncuriparse_stores uri_path h path (Some old) =
  Returns (NC_NOERR, Some (Some comp)).
Proof.
  intros Hst Hp Hu Hs He Hm. unfold NC__testurl.
  rewrite Hst. cbn [negb]. rewrite Hp, Hu.
  rewrite (strrchr_last "/" dir comp eq_refl Hs).
  cbn [tl]. unfold nulldup. rewrite Hm.
  now rewrite (cut_extension_none comp He).
Qed.

(** Edges of [NC__testurl].  When the parser does not store anything in
    the caller's pointer, the call uses the local [uri], which was never
    set: to read [uri->path] after a reported success, to free it in every
    case.  When the parser stores a pointer and reports an error, the
    status is [NC_EURL] and [*basenamep] is not written.  When it reports
    success but the URI has no path, or a path without ['/'], the name is
    cut from the whole argument [path] instead.  When the copy of the name
    cannot be allocated the caller gets NULL, with the status [NC_NOERR]. *)
Theorem testurl_edges (h : allocs) (path : ptr cstring)
  (basenamep : ptr (ptr cstring)) :
  (ncuriparse_stores path = false ->
   NC__testurl NCURI ncuriparse ncuriparse_stores uri_path h path basenamep =
   UnsetPointer) /\
  (ncuriparse_stores path = true ->
   fst (ncuriparse path) <> NC_NOERR ->
   NC__testurl NCURI ncuriparse ncuriparse_stores uri_path h path basenamep =
   Returns (NC_EURL, basenamep)) /\
  (forall uri old,
      ncuriparse_stores path = true ->
      ncuriparse path = (NC_NOERR, Some uri) ->
      (uri_path uri = None \/
       exists up, uri_path uri = Some up /\
                  existsb (fun x => x =? "/") up = false) ->
      fst (malloc h) = true ->
      NC__testurl NCURI ncuriparse ncuriparse_stores uri_path h path
        (Some old) =
      Returns (NC_NOERR, Some (cut_extension path))) /\
  (forall uri old,
      ncuriparse_stores path = true ->
      ncuriparse path = (NC_NOERR, Some uri) ->
      fst (malloc h) = false ->
      NC__testurl NCURI ncuriparse ncuriparse_stores uri_path h path
        (Some old) =
      Returns (NC_NOERR, Some None)).
Proof.
  unfold NC__testurl. repeat split.
  - intros ->. reflexivity.
  - intros -> Hf. cbn [negb].
    destruct (ncuriparse path) as [[] u]; simpl; try reflexivity.
    simpl in Hf. congruence.
  - intros uri old -> Hp Hu Hm. cbn [negb]. rewrite Hp.
    assert (E : match uri_path uri with
                | Some up => strrchr up "/"
                | None => None
                end = None).
    { destruct Hu as [->|(up & -> & Hs)]; [reflexivity|].
      exact (strrchr_none "/" up eq_refl Hs). }
    rewrite E. unfold nulldup. rewrite Hm.
    destruct path; reflexivity.
  - intros uri old -> Hp Hm. cbn [negb]. rewrite Hp.
    unfold nulldup. rewrite Hm.
    destruct (match match uri_path uri with
                    | Some up => strrchr up "/"
                    | None => None
                    end with
              | Some sl => Some (tl sl)
              | None => path
              end); reflexivity.
Qed.

End Basename.

Lemma testurl_basename_witness :
  0 < strlen (lit "file.v2") /\
  NC__testurl unit (fun _ => (NC_NOERR, Some tt)) (fun _ => true)
    (fun _ => Some (lit "/data/file.v2.nc")) []
    (Some (lit "http://host/data/file.v2.nc")) (Some None) =
  Returns (NC_NOERR, Some (Some (lit "file.v2"))).
Proof.
  assert (Hb : 0 < strlen (lit "file.v2")) by (vm_compute; lia).
  split; [exact Hb|].
  exact (testurl_basename unit (fun _ => (NC_NOERR, Some tt)) (fun _ => true)
           (fun _ => Some (lit "/data/file.v2.nc")) []
           (Some (lit "http://host/data/file.v2.nc")) None tt
           (lit "/data") (lit "file.v2") (lit "nc")
           eq_refl eq_refl eq_refl eq_refl eq_refl Hb eq_refl).
Defined.

Lemma testurl_no_extension_witness :
  existsb (fun x => x =? ".") (tl (lit ".hidden")) = false /\
  NC__testurl unit (fun _ => (NC_NOERR, Some tt)) (fun _ => true)
    (fun _ => Some (lit "/data/.hidden")) []
    (Some (lit "http://host/data/.hidden")) (Some None) =
  Returns (NC_NOERR, Some (Some (lit ".hidden"))).
Proof.
  split; [reflexivity|].
  exact (testurl_no_extension unit (fun _ => (NC_NOERR, Some tt))
           (fun _ => true)
           (fun _ => Some (lit "/data/.hidden")) []
           (Some (lit "http://host/data/.hidden")) None tt
           (lit "/data") (lit ".hidden")
           eq_refl eq_refl eq_refl eq_refl eq_refl eq_refl).
Defined.

Lemma testurl_edges_witness :
  (fst (malloc [false]) = false /\
   NC__testurl unit (fun _ => (NC_NOERR, Some tt)) (fun _ => true)
     (fun _ => Some (lit "/data/file.nc")) [false]
     (Some (lit "http://host/data/file.nc")) (Some (Some (lit "old"))) =
   Returns (NC_NOERR, Some None)) /\
  NC__testurl unit (fun _ => (NC_EURL, None)) (fun _ => false)
    (fun _ => None) [] (Some (lit "no url")) (Some (Some (lit "old"))) =
  UnsetPointer.
Proof.
  split; [split; [reflexivity|]|].
  - exact (proj2 (proj2 (proj2
             (testurl_edges unit (fun _ => (NC_NOERR, Some tt)) (fun _ => true)
                (fun _ => Some (lit "/data/file.nc")) [false]
                (Some (lit "http://host/data/file.nc"))
                (Some (Some (lit "old"))))))
             tt (Some (lit "old")) eq_refl eq_refl eq_refl).
  - exact (proj1
             (testurl_edges unit (fun _ => (NC_EURL, None)) (fun _ => false)
                (fun _ => None) [] (Some (lit "no url"))
                (Some (Some (lit "old"))))
             eq_refl).
Defined.

(** ** isinf and isnan *)

Lemma ieee754_fields (u : Z) :
  Z.land (to_unsigned (Z.shiftr u 32)) 0x7fffffff
    = ((u / 2 ^ 32) mod 2 ^ 31)%Z /\
  to_unsigned u = (u mod 2 ^ 32)%Z /\
  exponent_field u = ((u / 2 ^ 52) mod 2 ^ 11)%Z /\
  fraction_field u = (u mod 2 ^ 52)%Z.
Proof.
  unfold to_unsigned, exponent_field, fraction_field.
  change 0x7fffffff%Z with (Z.ones 31). change 0x7ff%Z with (Z.ones 11).
  rewrite !Z.land_ones, !Z.shiftr_div_pow2 by lia.
  repeat split.
  generalize (u / 2 ^ 32)%Z. intro x.
  change (2 ^ 32)%Z with 4294967296%Z. change (2 ^ 31)%Z with 2147483648%Z.
  Z.div_mod_to_equations. lia.
Qed.

Ltac ieee754_arith :=
  change (2 ^ 32)%Z with 4294967296%Z in *;
  change (2 ^ 31)%Z with 2147483648%Z in *;
  change (2 ^ 52)%Z with 4503599627370496%Z in *;
  change (2 ^ 11)%Z with 2048%Z in *;
  change (2 ^ 64)%Z with 18446744073709551616%Z in *;
  Z.div_mod_to_equations; lia.

(** [isinf] returns 1 exactly for the bit patterns whose exponent field is
    all ones and whose fraction field is zero, and 0 for all others. *)
Theorem isinf_fields (u : Z) :
  (isinf u = 1%Z <->
   exponent_field u = 0x7ff%Z /\ fraction_field u = 0%Z) /\
  (isinf u = 1%Z \/ isinf u = 0%Z).
Proof.
  unfold isinf. destruct (ieee754_fields u) as (-> & -> & -> & ->).
  destruct (Z.eqb_spec ((u / 2 ^ 32) mod 2 ^ 31) 0x7ff00000) as [E1|E1];
    destruct (Z.eqb_spec (u mod 2 ^ 32) 0) as [E0|E0]; simpl;
    (split; [|auto]);
    (split; [intro H; try discriminate H; split
            | intros [H1 H2]; try reflexivity; exfalso]);
    ieee754_arith.
Qed.


(** Among the 64-bit patterns, [isinf] returns 1 for the two infinities
    and for nothing else. *)
Theorem isinf_patterns (u : Z) :
  (0 <= u < 2 ^ 64)%Z ->
  (isinf u = 1%Z <->
   u = 0x7ff0000000000000%Z \/ u = 0xfff0000000000000%Z).
Proof.
  intro Hu. unfold isinf.
  destruct (ieee754_fields u) as (-> & -> & _ & _).
  destruct (Z.eqb_spec ((u / 2 ^ 32) mod 2 ^ 31) 0x7ff00000) as [E1|E1];
    destruct (Z.eqb_spec (u mod 2 ^ 32) 0) as [E0|E0]; simpl;
    (split; [intro H; try discriminate H
            | intros [H|H]; try reflexivity; exfalso]);
    ieee754_arith.
Qed.

Lemma isinf_patterns_witness :
  (0 <= 0xfff0000000000000 < 2 ^ 64)%Z /\
  isinf 0xfff0000000000000 = 1%Z.
Proof.
  assert (H : (0 <= 0xfff0000000000000 < 2 ^ 64)%Z) by (vm_compute; split; congruence).
  split; [exact H|].
  exact (proj2 (isinf_patterns 0xfff0000000000000%Z H) (or_intror eq_refl)).
Defined.
